(** * The localisation middleware and the admin routes of the car-service
      back end, embedded in Rocq.

    Sources embedded here:
    - [src/backend/middleware/rtlSupport.js]: [rtlSupport], [formatResponse]
      (with its inner [processObject]) and [formatResponseMiddleware];
    - [src/backend/routes/admin.js] and its second copy [src/unnamed/part_000]:
      the dashboard statistics and the status-update routes;
    - [src/unnamed/part_002]: the status buttons of the contact modal.

    Modelling conventions.
    - A JavaScript value is either a scalar or a reference into a store of
      composite values (arrays and plain objects).  References carry the
      identity that the [WeakSet] of [processObject] observes, so shared and
      self-referential payloads are expressible.
    - A plain object is the list of its own enumerable entries in the order
      [Object.entries] yields them; keys are pairwise distinct in a
      well-formed store.  An assignment [o[k] = v] is embedded as the write
      of an own property.  That is what JavaScript does for every key but
      [__proto__], whose assignment on a fresh object runs the prototype
      setter instead; the statements below that speak of the keys of a
      result say so where they leave that key out ([proto_key],
      [writes_no_proto]).
    - Strings are sequences of code units ([string]); [toLowerCase] is
      embedded on ASCII text, and the statements that depend on it ask for
      ASCII text ([ascii_only]).  Numbers are opaque to the formatter
      except for their truthiness and are represented by [Z].
    - The [lang] query parameter of [rtlSupport] is a string or absent in
      [incoming]; [rtlSupport_request] adds the array and object values
      that a repeated or nested parameter gives. *)

From stdpp Require Import base option list strings gmap sorting.
From Stdlib Require Import ZArith Ascii String Lia.

#[local] Set Warnings "-register-all,-clear-no-such-hyp".
Local Open Scope string_scope.

(** ** String primitives used by the middleware *)

Module Str.

(** [s.endsWith(suffix)] *)
Fixpoint endsWith (s suffix : string) : bool :=
  String.eqb s suffix ||
  match s with
  | EmptyString => false
  | String _ s' => endsWith s' suffix
  end.

(** [s.slice(0, -2)]: [s] without its last two code units. *)
Fixpoint slice_0_m2 (s : string) : string :=
  match s with
  | String c ((String _ (String _ _)) as t) => String c (slice_0_m2 t)
  | _ => EmptyString
  end.

(** [s.split(sep)] for a one-character separator. *)
Fixpoint split (sep : ascii) (s : string) : list string :=
  match s with
  | EmptyString => [EmptyString]
  | String c s' =>
      if Ascii.eqb c sep then EmptyString :: split sep s'
      else match split sep s' with
           | [] => [String c EmptyString]
           | w :: ws => String c w :: ws
           end
  end.

Definition lower_char (c : ascii) : ascii :=
  let n := nat_of_ascii c in
  if (65 <=? n)%nat && (n <=? 90)%nat then ascii_of_nat (n + 32) else c.

(** [s.toLowerCase()] on the ASCII range, the range of the language codes
    the middleware compares against. *)
Fixpoint toLowerCase (s : string) : string :=
  match s with
  | EmptyString => EmptyString
  | String c s' => String (lower_char c) (toLowerCase s')
  end.

(** [arr.includes(x)] on an array of strings. *)
Definition includes (arr : list string) (x : string) : bool :=
  existsb (String.eqb x) arr.

End Str.

(** ** Values, store and freshly built results *)

Definition loc := nat.

Inductive value : Type :=
  | VUndefined
  | VNull
  | VBool (b : bool)
  | VNum (n : Z)
  | VStr (s : string)
  | VRef (l : loc).

Inductive node : Type :=
  | NArray (items : list value)
  | NObject (entries : list (string * value)).

Abbreviation store := (gmap loc node).

(** What [processObject] returns: the objects and arrays it builds are fresh
    and referenced from one place only, so they form a tree; a leaf is a
    value returned as it is, a scalar or a reference to an input object. *)
Inductive out : Type :=
  | OVal (v : value)
  | OArray (items : list out)
  | OObject (entries : list (string * out)).

(** JavaScript truthiness. *)
Definition truthy (v : value) : bool :=
  match v with
  | VUndefined | VNull => false
  | VBool b => b
  | VNum n => negb (n =? 0)%Z
  | VStr s => negb (String.eqb s "")
  | VRef _ => true
  end.

Definition out_truthy (o : out) : bool :=
  match o with
  | OVal v => truthy v
  | OArray _ | OObject _ => true
  end.

(** ** Property access on a plain object under construction *)

Section Props.
Context {A : Type}.

(** [o[k]] *)
Fixpoint obj_get (k : string) (o : list (string * A)) : option A :=
  match o with
  | [] => None
  | (k', v) :: o' => if String.eqb k k' then Some v else obj_get k o'
  end.

(** [o[k] = v]: overwrite in place, or append a new property (what the
    assignment does for every key but [__proto__]). *)
Fixpoint obj_set (k : string) (v : A) (o : list (string * A))
  : list (string * A) :=
  match o with
  | [] => [(k, v)]
  | (k', v') :: o' =>
      if String.eqb k k' then (k, v) :: o' else (k', v') :: obj_set k v o'
  end.

Definition keys (o : list (string * A)) : list string := fst <$> o.
End Props.

(** ** formatResponse *)

Record request := {
  language : string;
  isRTL : bool;
  direction : string
}.

Section ProcessObject.
Variable h : store.
Variable rtl : bool.

(** One recursive call: the visited set before, the value, and the result
    with the visited set after; [None] when the recursion budget is spent
    or a reference points outside the store. *)
Definition call := gset loc -> value -> option (out * gset loc).

(** [obj.map((item) => processObject(item))] *)
Fixpoint mapItems (rec : call) (seen : gset loc) (items : list value)
  : option (list out * gset loc) :=
  match items with
  | [] => Some ([], seen)
  | item :: rest =>
      match rec seen item with
      | None => None
      | Some (o, seen1) =>
          match mapItems rec seen1 rest with
          | None => None
          | Some (os, seen2) => Some (o :: os, seen2)
          end
      end
  end.

(** The [for (const [key, value] of Object.entries(obj))] loop, with the
    object [processed] built so far. *)
Fixpoint loopEntries (rec : call) (seen : gset loc)
    (entries : list (string * value)) (processed : list (string * out))
  : option (list (string * out) * gset loc) :=
  match entries with
  | [] => Some (processed, seen)
  | (key, val) :: rest =>
      if Str.endsWith key "Ar" && rtl then
        let baseKey := Str.slice_0_m2 key in
        loopEntries rec seen rest (obj_set baseKey (OVal val) processed)
      else if negb (Str.endsWith key "Ar") then
        match rec seen val with
        | None => None
        | Some (o, seen1) =>
            loopEntries rec seen1 rest (obj_set key o processed)
        end
      else loopEntries rec seen rest processed
  end.

Fixpoint processObject (fuel : nat) (seen : gset loc) (obj : value)
  : option (out * gset loc) :=
  match fuel with
  | O => None
  | S fuel' =>
      match obj with
      | VRef l =>
          if decide (l ∈ seen) then Some (OVal VNull, seen)
          else
            let seen1 := {[l]} ∪ seen in
            match h !! l with
            | None => None
            | Some (NArray items) =>
                match mapItems (processObject fuel') seen1 items with
                | None => None
                | Some (os, seen2) => Some (OArray os, seen2)
                end
            | Some (NObject entries) =>
                match loopEntries (processObject fuel') seen1 entries [] with
                | None => None
                | Some (processed, seen2) => Some (OObject processed, seen2)
                end
            end
      | _ => Some (OVal obj, seen)
      end
  end.
End ProcessObject.

(** [formatResponse(data, req)].  The recursion budget is one more than the
    number of composite values in the store: every nested call marks one
    more of them as seen (lemma [processObject_total] below). *)
Definition formatResponse (h : store) (data : value) (req : request)
  : option out :=
  if negb (truthy data) then Some (OVal data)
  else fst <$> processObject h (isRTL req) (S (size h)) ∅ data.

(** ** Examples *)

Definition ltrReq : request :=
  {| language := "en"; isRTL := false; direction := "ltr" |}.
Definition rtlReq : request :=
  {| language := "ar"; isRTL := true; direction := "rtl" |}.



(** ** Well-formed stores *)

(** A reference is meaningful when it points into the store. *)
Definition val_closed (h : store) (v : value) : bool :=
  match v with
  | VRef l => bool_decide (is_Some (h !! l))
  | _ => true
  end.

Definition node_values (n : node) : list value :=
  match n with
  | NArray items => items
  | NObject entries => snd <$> entries
  end.

Definition node_closed (h : store) (n : node) : bool :=
  forallb (val_closed h) (node_values n).

(** Every reference held by a composite value of the store points into the
    store: JavaScript has no dangling references. *)
Definition closed (h : store) : bool :=
  forallb (fun ln => node_closed h ln.2) (map_to_list h).

(** ** JSON-like payloads

    The values reachable from [v] form a finite tree: no composite value is
    reachable twice, every object has pairwise distinct keys, and every key
    satisfies [P].  [F] is the set of composite values of the tree. *)

Definition is_scalar (v : value) : bool :=
  match v with
  | VRef _ => false
  | _ => true
  end.

Inductive json_like (h : store) (P : string -> Prop) : value -> gset loc -> Prop :=
  | json_scalar v :
      is_scalar v = true -> json_like h P v ∅
  | json_array l items F :
      h !! l = Some (NArray items) ->
      json_items h P items F ->
      l ∉ F ->
      json_like h P (VRef l) ({[l]} ∪ F)
  | json_object l entries F :
      h !! l = Some (NObject entries) ->
      NoDup (keys entries) ->
      Forall P (keys entries) ->
      json_items h P (snd <$> entries) F ->
      l ∉ F ->
      json_like h P (VRef l) ({[l]} ∪ F)
with json_items (h : store) (P : string -> Prop) : list value -> gset loc -> Prop :=
  | json_nil : json_items h P [] ∅
  | json_cons v vs F1 F2 :
      json_like h P v F1 ->
      json_items h P vs F2 ->
      F1 ## F2 ->
      json_items h P (v :: vs) (F1 ∪ F2).

Scheme json_like_mut := Minimality for json_like Sort Prop
  with json_items_mut := Minimality for json_items Sort Prop.
Combined Scheme json_mutind from json_like_mut, json_items_mut.



(** ** rtlSupport *)

(** What [rtlSupport] reads from the incoming request: [req.query.lang] and
    [req.headers["accept-language"]], each a string or [undefined].  The
    other values of [req.query.lang] are in [rtlSupport_request]. *)
Record incoming := {
  query_lang : option string;
  accept_language : option string
}.

Definition rtlLanguages : list string := ["ar"; "he"; "fa"; "ur"; "ku"; "dv"].

(** [a || b] on values that are strings or [undefined]: the empty string is
    falsy. *)
Definition js_or (a b : option string) : option string :=
  match a with
  | Some s => if String.eqb s "" then b else a
  | None => b
  end.

(** [h?.split(",")[0]?.split("-")[0]] *)
Definition header_subtag (hd : option string) : option string :=
  entry ← hd ≫= (fun s => head (Str.split ","%char s));
  head (Str.split "-"%char entry).

Definition resolve_language (r : incoming) : string :=
  default "en" (js_or (js_or (query_lang r) (header_subtag (accept_language r)))
                      (Some "en")).

Definition rtlSupport (r : incoming) : request :=
  let lang := resolve_language r in
  let rtl := Str.includes rtlLanguages (Str.toLowerCase lang) in
  {| language := lang; isRTL := rtl; direction := if rtl then "rtl" else "ltr" |}.

(** [res.locals.getLocalizedField] *)
Definition getLocalizedField (rtl : bool) (field fieldAr : value) : value :=
  if rtl then fieldAr else field.

(** [res.locals.getLocalizedFields]: the [forEach] over [Object.keys(obj)],
    one level deep, with the object [result] built so far. *)
Fixpoint localizedLoop (rtl : bool) (entries : list (string * value))
    (result : list (string * value)) : list (string * value) :=
  match entries with
  | [] => result
  | (key, val) :: rest =>
      if Str.endsWith key "Ar" && rtl then
        let baseKey := Str.slice_0_m2 key in
        localizedLoop rtl rest (obj_set baseKey val result)
      else if negb (Str.endsWith key "Ar") then
        localizedLoop rtl rest (obj_set key val result)
      else localizedLoop rtl rest result
  end.

Definition getLocalizedFields (rtl : bool) (obj : list (string * value))
  : list (string * value) :=
  localizedLoop rtl obj [].

(** The text before the first [sep] of [s]: how the specification words the
    primary subtag. *)
Fixpoint before_first (sep : ascii) (s : string) : string :=
  match s with
  | EmptyString => EmptyString
  | String c s' => if Ascii.eqb c sep then EmptyString
                   else String c (before_first sep s')
  end.

Definition primary_subtag (header : string) : string :=
  before_first "-" (before_first "," header).

(** ** formatResponseMiddleware *)

(** [o[k]] on a built result, read from its own entries: the read of the
    source on an object that kept the prototype it was created with, for a
    key that the built-in prototypes do not define.  [None] is the
    [TypeError] of a property read on [null] or [undefined]. *)
Definition out_prop (k : string) (o : out) : option out :=
  match o with
  | OObject es => Some (default (OVal VUndefined) (obj_get k es))
  | OArray _ => Some (OVal VUndefined)
  | OVal VNull | OVal VUndefined => None
  | OVal _ => Some (OVal VUndefined)
  end.

(** [o[k] = v] on a built result.  On an array it adds a named property,
    which the array's items do not show. *)
Definition out_assign (k : string) (v : out) (o : out) : out :=
  match o with
  | OObject es => OObject (obj_set k v es)
  | _ => o
  end.

(** [x === "success"] *)
Definition is_success (o : out) : bool :=
  match o with
  | OVal (VStr s) => String.eqb s "success"
  | _ => false
  end.

Definition language_block (req : request) : out :=
  OObject [("code", OVal (VStr (language req)));
           ("direction", OVal (VStr (direction req)));
           ("isRTL", OVal (VBool (isRTL req)))].

(** [typeof data === "object"] *)
Definition typeof_object (v : value) : bool :=
  match v with
  | VNull | VRef _ => true
  | _ => false
  end.

(** The replacement of [res.json]: the value handed to the original
    [res.json]. *)
Definition json_hook (h : store) (req : request) (data : value) : option out :=
  if truthy data && typeof_object data then
    formattedData ← formatResponse h data req;
    status ← out_prop "status" formattedData;
    if is_success status then
      d ← out_prop "data" formattedData;
      if out_truthy d then
        Some (out_assign "language" (language_block req) formattedData)
      else Some formattedData
    else Some formattedData
  else Some (OVal data).

(** ** The admin routes

    [src/backend/routes/admin.js] and [src/unnamed/part_000] are two copies
    of the same router.  Their dashboard and booking-status routes are the
    same text and are embedded once; their contact-status validators
    differ and are embedded one by one. *)

Module Admin.

(** A [Date] by its local calendar fields ([month] counts from 0, as
    [getMonth] does); dates compare in chronological order. *)
Record Date := mkDate {
  year : Z; month : Z; day : Z;
  hours : Z; minutes : Z; seconds : Z; millis : Z
}.

Definition fields (d : Date) : list Z :=
  [year d; month d; day d; hours d; minutes d; seconds d; millis d].

Fixpoint lex_leb (a b : list Z) : bool :=
  match a, b with
  | x :: a', y :: b' => (x <? y)%Z || ((x =? y)%Z && lex_leb a' b')
  | _, _ => true
  end.

(** [a <= b] on dates. *)
Definition date_leb (a b : Date) : bool := lex_leb (fields a) (fields b).

(** [d.setHours(0, 0, 0, 0)]: the date [d] is changed in place. *)
Definition setHours0 (d : Date) : Date :=
  mkDate (year d) (month d) (day d) 0 0 0 0.

Record User := { user_id : string; user_role : string }.
Record Service := { service_id : string }.
Record Blog := { blog_id : string }.
Record Booking := {
  booking_id : string;
  booking_status : string;
  booking_createdAt : Date;
  booking_actualCost : Z
}.
Record Contact := {
  contact_id : string;
  contact_status : string;
  contact_createdAt : Date
}.

Record Database := {
  Users : list User;
  Services : list Service;
  Blogs : list Blog;
  Bookings : list Booking;
  Contacts : list Contact
}.

(** The two fields the dashboard filters on. *)
Class HasStatus (D : Type) := status_of : D -> string.
Class HasCreatedAt (D : Type) := createdAt_of : D -> Date.

#[export] Instance booking_status_field : HasStatus Booking := booking_status.
#[export] Instance booking_createdAt_field : HasCreatedAt Booking := booking_createdAt.
#[export] Instance contact_status_field : HasStatus Contact := contact_status.
#[export] Instance contact_createdAt_field : HasCreatedAt Contact := contact_createdAt.

(** [{ status: s }] *)
Definition status_is {D} `{HasStatus D} (s : string) : D -> bool :=
  fun d => String.eqb (status_of d) s.

(** [{ createdAt: { $gte: t } }] *)
Definition createdAt_gte {D} `{HasCreatedAt D} (t : Date) : D -> bool :=
  fun d => date_leb t (createdAt_of d).

(** A filter object is the conjunction of its conditions; [{}] is []. *)
Definition matches {D} (q : list (D -> bool)) (d : D) : bool :=
  forallb (fun c => c d) q.

(** [Model.countDocuments(q)] *)
Fixpoint countDocuments {D} (q : list (D -> bool)) (coll : list D) : nat :=
  match coll with
  | [] => 0
  | d :: rest =>
      if matches q d then S (countDocuments q rest) else countDocuments q rest
  end.

(** [Booking.aggregate([{ $match: q }, { $group: { _id: null, total:
    { $sum: "$actualCost" } } }])]: one group when a booking matches, none
    otherwise. *)
Definition aggregate_total (q : list (Booking -> bool)) (coll : list Booking)
  : list Z :=
  match List.filter (matches q) coll with
  | [] => []
  | ds => [fold_right (fun b acc => (booking_actualCost b + acc)%Z) 0%Z ds]
  end.

Record Overview := {
  totalUsers : nat;
  totalServices : nat;
  totalBlogs : nat;
  totalContacts : nat;
  newContacts : nat;
  totalBookings : nat;
  pendingBookings : nat
}.

Record Monthly := {
  monthly_bookings : nat;
  monthly_revenue : Z;
  monthly_contacts : nat
}.

Record LiveData := { overview : Overview; monthly : Monthly }.

(** [GET /dashboard] on the database [db] at the time [now]: the counts of
    [liveData] (its [recent] lists are left out). *)
Definition dashboard (db : Database) (now : Date) : LiveData :=
  let today := setHours0 now in
  let startOfMonth := mkDate (year today) (month today) 1 0 0 0 0 in
  let monthlyRevenue :=
    aggregate_total [status_is "completed"; createdAt_gte startOfMonth]
                    (Bookings db) in
  {| overview := {|
       totalUsers := countDocuments [] (Users db);
       totalServices := countDocuments [] (Services db);
       totalBlogs := countDocuments [] (Blogs db);
       totalContacts := countDocuments [] (Contacts db);
       newContacts := countDocuments [status_is "new"] (Contacts db);
       totalBookings := countDocuments [] (Bookings db);
       pendingBookings := countDocuments [status_is "pending"] (Bookings db)
     |};
     monthly := {|
       monthly_bookings :=
         countDocuments [createdAt_gte startOfMonth] (Bookings db);
       monthly_revenue :=
         match monthlyRevenue with
         | total :: _ => total
         | [] => 0%Z
         end;
       monthly_contacts :=
         countDocuments [createdAt_gte startOfMonth] (Contacts db)
     |}
  |}.

(** The first instant of the month of [now]. *)
Definition month_start (now : Date) : Date :=
  mkDate (year now) (month now) 1 0 0 0 0.

(** *** Status updates *)

(** The request of a status update: [req.params.id], [req.body.status], and
    the errors the validators have recorded on the request so far. *)
Record statusRequest := {
  params_id : string;
  body_status : string;
  recorded_errors : list string
}.

(** [.isIn(allowed)] *)
Definition isIn (allowed : list string) (v : string) : bool :=
  Str.includes allowed v.

(** [body("status").isIn(allowed).withMessage(message)] as a route
    middleware: it records a failure on the request and hands over to the
    next handler.  Only a handler that reads the recorded errors
    ([validationResult(req)]) can reject the request. *)
Definition check_status (allowed : list string) (message : string)
    (req : statusRequest) : statusRequest :=
  if isIn allowed (body_status req) then req
  else {| params_id := params_id req;
          body_status := body_status req;
          recorded_errors := recorded_errors req ++ [message] |}.

Definition bookingStatuses : list string :=
  ["pending"; "confirmed"; "in-progress"; "completed"; "cancelled"].

Inductive reply : Type :=
  | Success (booking : Booking)
  | NextError (message : string) (statusCode : nat)
  | SaveRejected.

Section BookingStatus.
(** The schema validation that [booking.save()] runs.  The schema
    ([models/Booking]) is not among the sources. *)
Variable schema_accepts : Booking -> bool.

Definition findById (id : string) (coll : list Booking) : option Booking :=
  List.find (fun b => String.eqb (booking_id b) id) coll.

Definition save (b : Booking) (coll : list Booking) : option (list Booking) :=
  if schema_accepts b then
    Some (map (fun b' => if String.eqb (booking_id b') (booking_id b)
                         then b else b') coll)
  else None.

Definition with_bookings (db : Database) (coll : list Booking) : Database :=
  {| Users := Users db; Services := Services db; Blogs := Blogs db;
     Bookings := coll; Contacts := Contacts db |}.

(** The handler of [PUT /bookings/:id/status]. *)
Definition booking_status_handler (db : Database) (req : statusRequest)
  : Database * reply :=
  match findById (params_id req) (Bookings db) with
  | None => (db, NextError "Booking not found" 404)
  | Some booking =>
      let booking' :=
        {| booking_id := booking_id booking;
           booking_status := body_status req;
           booking_createdAt := booking_createdAt booking;
           booking_actualCost := booking_actualCost booking |} in
      match save booking' (Bookings db) with
      | Some coll => (with_bookings db coll, Success booking')
      | None => (db, SaveRejected)
      end
  end.

(** The route: the validator, then the handler. *)
Definition put_booking_status (db : Database) (req : statusRequest)
  : Database * reply :=
  booking_status_handler db (check_status bookingStatuses "Invalid status" req).
End BookingStatus.

(** The status lists of [PUT /contacts/:id/status] in the two copies of the
    router, and the buttons of the contact modal. *)
Definition contactStatuses_admin_js : list string :=
  ["new"; "read"; "replied"; "closed"].
Definition contactStatuses_part_000 : list string :=
  ["new"; "in-progress"; "resolved"; "closed"].
Definition modalStatuses : list string :=
  ["new"; "in-progress"; "resolved"; "closed"].

(** *** The other status updates *)

Definition userRoles : list string := ["user"; "admin"].

Inductive userReply : Type :=
  | UserSuccess (user : User)
  | UserNextError (message : string) (statusCode : nat)
  | UserSaveRejected.

Inductive contactReply : Type :=
  | ContactSuccess (contact : Contact)
  | ContactNextError (message : string) (statusCode : nat)
  | ContactSaveRejected.

Section OtherUpdates.
(** The schema validations of [user.save()] and [contact.save()]; the
    schemas are not among the sources. *)
Variable user_schema_accepts : User -> bool.
Variable contact_schema_accepts : Contact -> bool.

Definition findUserById (id : string) (coll : list User) : option User :=
  List.find (fun u => String.eqb (user_id u) id) coll.

Definition saveUser (u : User) (coll : list User) : option (list User) :=
  if user_schema_accepts u then
    Some (map (fun u' => if String.eqb (user_id u') (user_id u)
                         then u else u') coll)
  else None.

Definition with_users (db : Database) (coll : list User) : Database :=
  {| Users := coll; Services := Services db; Blogs := Blogs db;
     Bookings := Bookings db; Contacts := Contacts db |}.

(** The handler of [PUT /users/:id/role]; the request carries the new role
    in [body_status]. *)
Definition user_role_handler (db : Database) (req : statusRequest)
  : Database * userReply :=
  match findUserById (params_id req) (Users db) with
  | None => (db, UserNextError "User not found" 404)
  | Some user =>
      let user' := {| user_id := user_id user; user_role := body_status req |} in
      match saveUser user' (Users db) with
      | Some coll => (with_users db coll, UserSuccess user')
      | None => (db, UserSaveRejected)
      end
  end.

Definition put_user_role (db : Database) (req : statusRequest)
  : Database * userReply :=
  user_role_handler db (check_status userRoles "Invalid role" req).

Definition findContactById (id : string) (coll : list Contact) : option Contact :=
  List.find (fun c => String.eqb (contact_id c) id) coll.

Definition saveContact (c : Contact) (coll : list Contact)
  : option (list Contact) :=
  if contact_schema_accepts c then
    Some (map (fun c' => if String.eqb (contact_id c') (contact_id c)
                         then c else c') coll)
  else None.

Definition with_contacts (db : Database) (coll : list Contact) : Database :=
  {| Users := Users db; Services := Services db; Blogs := Blogs db;
     Bookings := Bookings db; Contacts := coll |}.

(** The handler of [PUT /contacts/:id/status], the same text in both
    copies of the router. *)
Definition contact_status_handler (db : Database) (req : statusRequest)
  : Database * contactReply :=
  match findContactById (params_id req) (Contacts db) with
  | None => (db, ContactNextError "Contact not found" 404)
  | Some contact =>
      let contact' :=
        {| contact_id := contact_id contact;
           contact_status := body_status req;
           contact_createdAt := contact_createdAt contact |} in
      match saveContact contact' (Contacts db) with
      | Some coll => (with_contacts db coll, ContactSuccess contact')
      | None => (db, ContactSaveRejected)
      end
  end.

(** The route as [src/backend/routes/admin.js] has it. *)
Definition put_contact_status_admin_js (db : Database) (req : statusRequest)
  : Database * contactReply :=
  contact_status_handler db
    (check_status contactStatuses_admin_js "Invalid status" req).

(** The route as [src/unnamed/part_000] has it. *)
Definition put_contact_status_part_000 (db : Database) (req : statusRequest)
  : Database * contactReply :=
  contact_status_handler db
    (check_status contactStatuses_part_000 "Invalid status" req).
End OtherUpdates.

(** *** The contact list *)

(** 2^53: below it the doubles of the source are exact integers. *)
Definition max_safe : Z := 9007199254740992.

(** [.sort({ createdAt: -1 })]: newest first.  The order of records with
    equal dates is not fixed by the query; the insertion below keeps a
    later record of the collection before an earlier one of the same date. *)
Fixpoint insert_desc (c : Contact) (sorted : list Contact) : list Contact :=
  match sorted with
  | [] => [c]
  | d :: rest =>
      if date_leb (contact_createdAt d) (contact_createdAt c)
      then c :: sorted
      else d :: insert_desc c rest
  end.

Definition sort_desc (coll : list Contact) : list Contact :=
  fold_right insert_desc [] coll.

(** [req.query] of [GET /contacts]: [page] and [limit], each written in
    plain decimal digits, by the number the digits denote ([None] when the
    parameter is absent), and [status].  For such text [ToNumber] and
    [parseInt] give the same number; the arithmetic of the source on it is
    exact below [max_safe]. *)
Record listQuery := {
  q_page : option nat;
  q_limit : option nat;
  q_status : option string
}.

(** The paginated envelope; [pages] is [None] when [Math.ceil(total /
    limit)] is not a finite number (a [limit] of 0). *)
Record listing := {
  results : nat;
  total : nat;
  page : nat;
  pages : option nat;
  data_contacts : list Contact
}.

(** [Math.ceil(total / limit)] for a [limit] of at least 1. *)
Definition ceil_div (total limit : nat) : nat :=
  (total + limit - 1) / limit.

(** [GET /contacts].  [None] is the query that the database refuses (a
    negative [skip]); [.limit(0)] sets no limit. *)
Definition get_contacts (coll : list Contact) (q : listQuery) : option listing :=
  let page := default 1 (q_page q) in
  let limit := default 10 (q_limit q) in
  let skip := ((Z.of_nat page - 1) * Z.of_nat limit)%Z in
  let filter : list (Contact -> bool) :=
    match q_status q with
    | Some s => if String.eqb s "" then [] else [status_is s]
    | None => []
    end in
  if (skip <? 0)%Z then None
  else
    let sorted := sort_desc (List.filter (matches filter) coll) in
    let skipped := drop (Z.to_nat skip) sorted in
    let contacts := if (limit =? 0)%nat then skipped else take limit skipped in
    Some {| results := List.length contacts;
            total := countDocuments filter coll;
            page := page;
            pages := if (limit =? 0)%nat then None
                     else Some (ceil_div (countDocuments filter coll) limit);
            data_contacts := contacts |}.

End Admin.

(** A result that holds no reference to an input object and, in its
    objects at every depth, no key ending in ["Ar"]. *)
Fixpoint out_clean (o : out) : bool :=
  match o with
  | OVal v => is_scalar v
  | OArray os => forallb out_clean os
  | OObject es =>
      forallb (fun kv => match kv with
                         | (k, o') => negb (Str.endsWith k "Ar") && out_clean o'
                         end) es
  end.

(** The code units of a string. *)
Fixpoint chars (s : string) : list ascii :=
  match s with
  | EmptyString => []
  | String c s' => c :: chars s'
  end.

(** ** The reach of the embedding *)

(** The one key whose assignment creates no property on a fresh object: it
    runs the prototype setter of [Object.prototype]. *)
Definition proto_key : string := "__proto__".



(** Text of ASCII code units, on which [Str.toLowerCase] is the
    [toLowerCase] of JavaScript. *)
Definition ascii_only (s : string) : bool :=
  forallb (fun c => (nat_of_ascii c <? 128)%nat) (chars s).

(** [req.query.lang] as the query parser gives it: absent, one string, or
    an array or object (a repeated or nested parameter). *)
Inductive lang_param : Type :=
  | LangAbsent
  | LangString (s : string)
  | LangComposite.

(** [rtlSupport] on every value of [req.query.lang].  An array or object is
    truthy, so it becomes [language], and [language.toLowerCase()] throws a
    [TypeError]: [None]. *)
Definition rtlSupport_request (lang : lang_param) (accept : option string)
  : option request :=
  match lang with
  | LangComposite => None
  | LangString s =>
      Some (rtlSupport {| query_lang := Some s; accept_language := accept |})
  | LangAbsent =>
      Some (rtlSupport {| query_lang := None; accept_language := accept |})
  end.

(** The property an entry with key [key] writes, if it writes one. *)
Definition target (rtl : bool) (key : string) : option string :=
  if Str.endsWith key "Ar" then
    if rtl then Some (Str.slice_0_m2 key) else None
  else Some key.

(** * Properties *)

(** ** Strings *)

Lemma endsWith_spec s suffix :
  Str.endsWith s suffix = true <-> exists p, s = p +:+ suffix.
Proof.
  induction s as [|c s IH]; cbn [Str.endsWith].
  - rewrite orb_false_r, String.eqb_eq. split.
    + intros <-. by exists "".
    + intros [p Hp]. destruct p; simpl in Hp; [done | discriminate].
  - rewrite orb_true_iff, String.eqb_eq, IH. split.
    + intros [<- | [p ->]]; [by exists "" | by exists (String c p)].
    + intros [[|c' p] Hp]; simpl in Hp; [by left |].
      injection Hp as -> ->. right. by exists p.
Qed.

Lemma slice_cons c a b r :
  Str.slice_0_m2 (String c (String a (String b r)))
  = String c (Str.slice_0_m2 (String a (String b r))).
Proof. reflexivity. Qed.

Lemma slice_app_Ar K : Str.slice_0_m2 (K +:+ "Ar") = K.
Proof.
  induction K as [|c K IH]; [done |].
  destruct K as [|c' [|c'' K]]; [done | done |].
  change (String c (String c' (String c'' K)) +:+ "Ar")
    with (String c (String c' (String c'' (K +:+ "Ar")))).
  rewrite slice_cons. f_equal. exact IH.
Qed.

Lemma endsWith_app_Ar K : Str.endsWith (K +:+ "Ar") "Ar" = true.
Proof. apply endsWith_spec. by exists K. Qed.

Lemma endsWith_Ar_slice k :
  Str.endsWith k "Ar" = true -> k = Str.slice_0_m2 k +:+ "Ar".
Proof. intros [p ->]%endsWith_spec. by rewrite slice_app_Ar. Qed.

(** ** Property access *)

Section PropsFacts.
Context {A : Type}.
Implicit Types (o : list (string * A)) (k : string).

Lemma obj_get_set_eq k (v : A) o : obj_get k (obj_set k v o) = Some v.
Proof.
  induction o as [|[k' v'] o IH]; simpl.
  - by rewrite String.eqb_refl.
  - destruct (String.eqb k k') eqn:E; simpl; rewrite ?String.eqb_refl, ?E; done.
Qed.

Lemma obj_get_set_ne k k' (v : A) o :
  k <> k' -> obj_get k (obj_set k' v o) = obj_get k o.
Proof.
  intros Hne. induction o as [|[k2 v2] o IH]; simpl.
  - by apply String.eqb_neq in Hne as ->.
  - destruct (String.eqb k' k2) eqn:E; simpl.
    + apply String.eqb_eq in E as ->.
      by apply String.eqb_neq in Hne as ->.
    + by rewrite IH.
Qed.

Lemma obj_get_None k o : obj_get k o = None <-> k ∉ keys o.
Proof.
  induction o as [|[k' v'] o IH]; simpl.
  - split; [intros _; apply not_elem_of_nil | done].
  - rewrite not_elem_of_cons. destruct (String.eqb k k') eqn:E.
    + apply String.eqb_eq in E. split; [done | tauto].
    + apply String.eqb_neq in E. rewrite IH. tauto.
Qed.

Lemma obj_get_is_Some k o : is_Some (obj_get k o) <-> k ∈ keys o.
Proof.
  rewrite <- not_eq_None_Some, obj_get_None.
  destruct (decide (k ∈ keys o)); tauto.
Qed.

Lemma obj_get_elem_of k (v : A) o :
  NoDup (keys o) -> (k, v) ∈ o -> obj_get k o = Some v.
Proof.
  induction o as [|[k' v'] o IH]; simpl; intros Hnd Hin.
  - by apply elem_of_nil in Hin.
  - apply NoDup_cons in Hnd as [Hk' Hnd].
    apply elem_of_cons in Hin as [[= <- <-] | Hin].
    + by rewrite String.eqb_refl.
    + destruct (String.eqb k k') eqn:E; [| by apply IH].
      apply String.eqb_eq in E as <-. exfalso. apply Hk'.
      apply list_elem_of_fmap. by exists (k, v).
Qed.

Lemma keys_obj_set k (v : A) o x :
  x ∈ keys (obj_set k v o) <-> x = k \/ x ∈ keys o.
Proof.
  unfold keys. induction o as [|[k' v'] o IH]; simpl.
  - rewrite list_elem_of_singleton. split; [by left | intros [|H]; [done|]].
    by apply elem_of_nil in H.
  - destruct (String.eqb k k') eqn:E; simpl; rewrite !elem_of_cons.
    + apply String.eqb_eq in E as ->. tauto.
    + rewrite IH. tauto.
Qed.

Lemma obj_set_fresh k (v : A) o :
  k ∉ keys o -> obj_set k v o = (o ++ [(k, v)])%list.
Proof.
  induction o as [|[k' v'] o IH]; simpl; [done |].
  rewrite not_elem_of_cons. intros [Hne Hk].
  apply String.eqb_neq in Hne as ->. by rewrite IH.
Qed.
End PropsFacts.

(** ** Termination of the recursive walk *)

Section Totality.
Variable h : store.
Variable rtl : bool.
Hypothesis Hclosed : closed h = true.

Lemma closed_lookup l n :
  h !! l = Some n -> forallb (val_closed h) (node_values n) = true.
Proof.
  intros Hl. unfold closed in Hclosed.
  rewrite forallb_forall in Hclosed.
  apply (Hclosed (l, n)), list_elem_of_In. by apply elem_of_map_to_list.
Qed.

Lemma mapItems_total (rec : call) items : forall seen,
  (forall s v, seen ⊆ s -> val_closed h v = true ->
     exists o s', rec s v = Some (o, s') /\ s ⊆ s') ->
  forallb (val_closed h) items = true ->
  exists os s', mapItems rec seen items = Some (os, s') /\ seen ⊆ s'.
Proof.
  induction items as [|item rest IH]; intros seen Hrec Hcl; simpl.
  - by exists [], seen.
  - simpl in Hcl. apply andb_true_iff in Hcl as [Hitem Hrest].
    destruct (Hrec seen item) as (o & s1 & -> & Hs1); [done | done |].
    destruct (IH s1) as (os & s2 & -> & Hs2); [| done |].
    + intros s v Hs. apply Hrec. set_solver.
    + exists (o :: os), s2. split; [done | set_solver].
Qed.

Lemma loopEntries_total (rec : call) entries : forall seen processed,
  (forall s v, seen ⊆ s -> val_closed h v = true ->
     exists o s', rec s v = Some (o, s') /\ s ⊆ s') ->
  forallb (val_closed h) (snd <$> entries) = true ->
  exists res s',
    loopEntries rtl rec seen entries processed = Some (res, s') /\ seen ⊆ s'.
Proof.
  induction entries as [|[key val] rest IH]; intros seen processed Hrec Hcl.
  - by exists processed, seen.
  - simpl in Hcl. apply andb_true_iff in Hcl as [Hval Hrest].
    cbn [loopEntries].
    destruct (Str.endsWith key "Ar" && rtl); [by apply IH |].
    destruct (negb (Str.endsWith key "Ar")); [| by apply IH].
    destruct (Hrec seen val) as (o & s1 & -> & Hs1); [done | done |].
    destruct (IH s1 (obj_set key o processed)) as (res & s2 & -> & Hs2);
      [| done |].
    + intros s v Hs. apply Hrec. set_solver.
    + exists res, s2. split; [done | set_solver].
Qed.

Lemma processObject_total fuel : forall seen v,
  val_closed h v = true ->
  size (dom h ∖ seen) < fuel ->
  exists o s', processObject h rtl fuel seen v = Some (o, s') /\ seen ⊆ s'.
Proof.
  induction fuel as [|fuel IH]; intros seen v Hv Hsz; [lia |].
  destruct v as [| | b | n | s | l];
    try (eexists _, seen; split; [reflexivity | done]).
  cbn [processObject].
  destruct (decide (l ∈ seen)) as [Hin | Hnotin];
    [eexists _, seen; split; [reflexivity | done] |].
  simpl in Hv. apply bool_decide_eq_true in Hv as [n Hn]. rewrite Hn.
  assert (Hrec : forall s v, {[l]} ∪ seen ⊆ s -> val_closed h v = true ->
            exists o s', processObject h rtl fuel s v = Some (o, s') /\ s ⊆ s').
  { intros s v Hs Hcv. apply IH; [done |].
    assert (dom h ∖ s ⊂ dom h ∖ seen) as Hlt%subset_size; [| lia].
    apply elem_of_dom_2 in Hn. set_solver. }
  pose proof (closed_lookup l n Hn) as Hcl.
  destruct n as [items | entries]; simpl in Hcl.
  - destruct (mapItems_total _ items _ Hrec Hcl) as (os & s' & -> & Hs').
    exists (OArray os), s'. split; [done | set_solver].
  - destruct (loopEntries_total _ entries _ [] Hrec Hcl) as (res & s' & -> & Hs').
    exists (OObject res), s'. split; [done | set_solver].
Qed.
End Totality.

(** A visited composite value is not entered again. *)
Lemma processObject_revisit h rtl fuel seen l :
  l ∈ seen ->
  processObject h rtl (S fuel) seen (VRef l) = Some (OVal VNull, seen).
Proof. intros Hl. simpl. by rewrite decide_True. Qed.

Lemma formatResponse_defined h data req :
  closed h = true -> val_closed h data = true ->
  exists o, formatResponse h data req = Some o.
Proof.
  intros Hh Hd. unfold formatResponse.
  destruct (negb (truthy data)); [by eexists |].
  destruct (processObject_total h (isRTL req) Hh (S (size h)) ∅ data)
    as (o & s' & -> & _); [done | | by exists o].
  rewrite difference_empty_L, size_dom. lia.
Qed.

(** ** The entry loop, property by property *)

Section LoopFacts.
Variable rtl : bool.
Variable rec : call.
Implicit Types (entries : list (string * value)) (processed res : list (string * out)).

Lemma target_Ar_rtl key :
  Str.endsWith key "Ar" = true -> target true key = Some (Str.slice_0_m2 key).
Proof. unfold target. by intros ->. Qed.

Lemma target_plain r key :
  Str.endsWith key "Ar" = false -> target r key = Some key.
Proof. unfold target. by intros ->. Qed.

Lemma target_ltr_Ar key k :
  target false key = Some k -> Str.endsWith k "Ar" = false /\ key = k.
Proof.
  unfold target. destruct (Str.endsWith key "Ar") eqn:E; [done |].
  by intros [= <-].
Qed.

Lemma loopEntries_app pre post : forall seen processed,
  loopEntries rtl rec seen (pre ++ post) processed =
  match loopEntries rtl rec seen pre processed with
  | Some (p, s) => loopEntries rtl rec s post p
  | None => None
  end.
Proof.
  induction pre as [|[key val] pre IH]; intros seen processed; [done |].
  cbn [app loopEntries].
  destruct (Str.endsWith key "Ar" && rtl); [apply IH |].
  destruct (negb (Str.endsWith key "Ar")); [| apply IH].
  destruct (rec seen val) as [[o s1] |]; [apply IH | done].
Qed.

(** One step of the loop, by the property it writes. *)
Lemma loopEntries_cons key val rest seen processed res s' :
  loopEntries rtl rec seen ((key, val) :: rest) processed = Some (res, s') ->
  match target rtl key with
  | None => loopEntries rtl rec seen rest processed = Some (res, s')
  | Some k =>
      exists o s1,
        loopEntries rtl rec s1 rest (obj_set k o processed) = Some (res, s') /\
        if Str.endsWith key "Ar" then o = OVal val /\ s1 = seen
        else rec seen val = Some (o, s1)
  end.
Proof.
  cbn [loopEntries]. unfold target.
  destruct (Str.endsWith key "Ar") eqn:E, rtl; simpl; try done.
  - intros H. by exists (OVal val), seen.
  - destruct (rec seen val) as [[o s1] |]; [| done]. intros H. by exists o, s1.
  - destruct (rec seen val) as [[o s1] |]; [| done]. intros H. by exists o, s1.
Qed.

Lemma loopEntries_keys entries : forall seen processed res s',
  loopEntries rtl rec seen entries processed = Some (res, s') ->
  forall k, k ∈ keys res <->
    k ∈ keys processed \/ exists key, key ∈ keys entries /\ target rtl key = Some k.
Proof.
  induction entries as [|[key val] rest IH]; intros seen processed res s' H k.
  - injection H as <- <-. split; [by left |].
    intros [? | (key & Hk & _)]; [done | by apply elem_of_nil in Hk].
  - apply loopEntries_cons in H.
    unfold keys at 3. rewrite fmap_cons. cbn [fst]. fold (keys rest).
    destruct (target rtl key) as [k0 |] eqn:T.
    + destruct H as (o & s1 & H & _). rewrite (IH _ _ _ _ H), keys_obj_set.
      split.
      * intros [[-> | ?] | (key' & Hk' & T')]; [right | by left | right].
        -- exists key. split; [apply elem_of_cons; by left | done].
        -- exists key'. split; [apply elem_of_cons; by right | done].
      * intros [? | (key' & [-> | Hk']%elem_of_cons & T')].
        -- left. by right.
        -- left. left. congruence.
        -- right. by exists key'.
    + rewrite (IH _ _ _ _ H). split.
      * intros [? | (key' & Hk' & T')]; [by left | right].
        exists key'. split; [apply elem_of_cons; by right | done].
      * intros [? | (key' & [-> | Hk']%elem_of_cons & T')];
          [by left | congruence |].
        right. by exists key'.
Qed.

(** A property no entry writes keeps the value it had. *)
Lemma loopEntries_get_frame entries k : forall seen processed res s',
  loopEntries rtl rec seen entries processed = Some (res, s') ->
  (forall key, key ∈ keys entries -> target rtl key <> Some k) ->
  obj_get k res = obj_get k processed.
Proof.
  induction entries as [|[key val] rest IH]; intros seen processed res s' H Hno.
  - by injection H as <- <-.
  - apply loopEntries_cons in H.
    assert (Hrest : forall key', key' ∈ keys rest -> target rtl key' <> Some k).
    { intros key' Hk'. apply Hno, elem_of_cons. by right. }
    assert (Hkey : target rtl key <> Some k).
    { apply Hno, elem_of_cons. by left. }
    destruct (target rtl key) as [k0 |].
    + destruct H as (o & s1 & H & _). rewrite (IH _ _ _ _ H Hrest).
      apply obj_get_set_ne. congruence.
    + by apply (IH _ _ _ _ H).
Qed.

(** The last entry that writes a property decides its value. *)
Lemma loopEntries_get_last pre key val post k seen processed res s' :
  loopEntries rtl rec seen (pre ++ (key, val) :: post) processed = Some (res, s') ->
  target rtl key = Some k ->
  (forall key', key' ∈ keys post -> target rtl key' <> Some k) ->
  exists p s o s1,
    loopEntries rtl rec seen pre processed = Some (p, s) /\
    obj_get k res = Some o /\
    if Str.endsWith key "Ar" then o = OVal val else rec s val = Some (o, s1).
Proof.
  rewrite loopEntries_app. intros H T Hpost.
  destruct (loopEntries rtl rec seen pre processed) as [[p s] |]; [| done].
  apply loopEntries_cons in H. rewrite T in H.
  destruct H as (o & s1 & H & Ho).
  exists p, s, o, s1. split; [done |]. split.
  - rewrite (loopEntries_get_frame _ _ _ _ _ _ H Hpost).
    apply obj_get_set_eq.
  - destruct (Str.endsWith key "Ar"); [apply Ho | done].
Qed.
End LoopFacts.

(** ** Payloads without sharing *)

Lemma mapItems_length rec items : forall seen os s',
  mapItems rec seen items = Some (os, s') -> List.length os = List.length items.
Proof.
  induction items as [|item rest IH]; intros seen os s' H; simpl in H.
  - by injection H as <- _.
  - destruct (rec seen item) as [[o s1] |]; [| done].
    destruct (mapItems rec s1 rest) as [[os' s2] |] eqn:E; [| done].
    injection H as <- _. simpl. f_equal. by eapply IH.
Qed.


Section JsonLike.
Variable h : store.
Variable rtl : bool.

End JsonLike.

(** ** formatResponse on an object *)

Lemma formatResponse_object h l entries req :
  closed h = true ->
  h !! l = Some (NObject entries) ->
  exists res s',
    loopEntries (isRTL req) (processObject h (isRTL req) (size h))
                ({[l]} ∪ ∅) entries [] = Some (res, s') /\
    formatResponse h (VRef l) req = Some (OObject res).
Proof.
  intros Hh Hl.
  destruct (processObject_total h (isRTL req) Hh (S (size h)) ∅ (VRef l))
    as (o & s' & Ho & _).
  { simpl. apply bool_decide_eq_true. by eexists. }
  { rewrite difference_empty_L, size_dom. lia. }
  unfold formatResponse. cbn [truthy negb]. rewrite Ho.
  cbn [processObject] in Ho. rewrite decide_False in Ho by set_solver.
  rewrite Hl in Ho.
  destruct (loopEntries _ _ _ entries []) as [[res s2] |]; [| done].
  injection Ho as <- <-. by exists res, s2.
Qed.

Lemma append_Ar_Ar K : (K +:+ "Ar") +:+ "Ar" = K +:+ "ArAr".
Proof.
  induction K as [|c K IH]; [done |].
  change (String c ((K +:+ "Ar") +:+ "Ar") = String c (K +:+ "ArAr")).
  by f_equal.
Qed.

(** The only entries that can write the property [K] are the entry [K]
    itself and, under rtl, the entry [K+"Ar"]. *)
Lemma target_Some rtl key K :
  target rtl key = Some K ->
  (key = K /\ Str.endsWith K "Ar" = false) \/ (rtl = true /\ key = K +:+ "Ar").
Proof.
  unfold target. destruct (Str.endsWith key "Ar") eqn:E.
  - destruct rtl; [| done]. intros [= <-]. right.
    split; [done | by apply endsWith_Ar_slice].
  - intros [= <-]. by left.
Qed.

(** ** The claims on the formatter *)

(** C1 (as found in the code).  With [fooAr] inserted before [foo], the
    formatter under rtl returns [foo] bound to the original [foo] value, not
    to the value of [fooAr]: the later entry overwrites the earlier one.
    With [foo] inserted first the value of [fooAr] is returned. *)
Theorem pair_rtl_depends_on_order :
  formatResponse
    {[ 0%nat := NObject [("fooAr", VStr "b"); ("foo", VStr "a")] ]}
    (VRef 0) rtlReq
  = Some (OObject [("foo", OVal (VStr "a"))]) /\
  formatResponse
    {[ 0%nat := NObject [("foo", VStr "a"); ("fooAr", VStr "b")] ]}
    (VRef 0) rtlReq
  = Some (OObject [("foo", OVal (VStr "b"))]).
Proof. split; vm_compute; reflexivity. Qed.

(** C2 (as found in the code).  Under rtl the value of an [Ar]-suffixed key
    is stored as it is: the object bound to [aAr] below is not walked, and
    its pair [x]/[xAr] is still there in the result (the result holds the
    very reference [VRef 1]).  The same object bound to a plain key is
    walked and its pair collapses. *)
Theorem rtl_Ar_value_not_walked :
  formatResponse
    (<[ 0%nat := NObject [("aAr", VRef 1)] ]>
       {[ 1%nat := NObject [("x", VNum 1); ("xAr", VNum 2)] ]})
    (VRef 0) rtlReq
  = Some (OObject [("a", OVal (VRef 1))]) /\
  formatResponse
    (<[ 0%nat := NObject [("a", VRef 1)] ]>
       {[ 1%nat := NObject [("x", VNum 1); ("xAr", VNum 2)] ]})
    (VRef 0) rtlReq
  = Some (OObject [("a", OObject [("x", OVal (VNum 2))])]).
Proof. split; vm_compute; reflexivity. Qed.

(** C3.  On every well-formed store, cyclic or not, and for every payload
    and direction, [formatResponse] returns a result; and a composite value
    that is already in the visited set is answered by [null], without a
    further descent. *)
Theorem formatResponse_terminates h data req :
  closed h = true ->
  val_closed h data = true ->
  (exists o, formatResponse h data req = Some o) /\
  (forall fuel seen l, l ∈ seen ->
     processObject h (isRTL req) (S fuel) seen (VRef l)
     = Some (OVal VNull, seen)).
Proof.
  intros Hh Hd. split.
  - by apply formatResponse_defined.
  - intros fuel seen l Hl. by apply processObject_revisit.
Qed.

Lemma formatResponse_terminates_witness :
  (exists o,
     formatResponse
       {[ 0%nat := NObject [("self", VRef 0); ("list", VRef 1)];
          1%nat := NArray [VRef 0; VRef 1; VNum 3] ]}
       (VRef 0) rtlReq = Some o) /\
  (forall fuel seen l, l ∈ seen ->
     processObject
       {[ 0%nat := NObject [("self", VRef 0); ("list", VRef 1)];
          1%nat := NArray [VRef 0; VRef 1; VNum 3] ]}
       (isRTL rtlReq) (S fuel) seen (VRef l)
     = Some (OVal VNull, seen)).
Proof.
  apply (formatResponse_terminates
           {[ 0%nat := NObject [("self", VRef 0); ("list", VRef 1)];
              1%nat := NArray [VRef 0; VRef 1; VNum 3] ]}
           (VRef 0) rtlReq); vm_compute; reflexivity.
Defined.

(** The self-referential payload above, walked. *)
Example cyclic_payload_walk :
  formatResponse
    {[ 0%nat := NObject [("self", VRef 0); ("list", VRef 1)];
       1%nat := NArray [VRef 0; VRef 1; VNum 3] ]}
    (VRef 0) ltrReq
  = Some (OObject [("self", OVal VNull);
                   ("list", OArray [OVal VNull; OVal VNull; OVal (VNum 3)])]).
Proof. vm_compute. reflexivity. Qed.







(** The one-level helper [getLocalizedFields] is the entry loop with the
    values taken as they are. *)
Lemma obj_set_fmap_OVal k v (result : list (string * value)) :
  obj_set k (OVal v) (prod_map id OVal <$> result)
  = prod_map id OVal <$> obj_set k v result.
Proof.
  induction result as [|[k' v'] result IH]; [done |].
  rewrite fmap_cons. cbn [obj_set prod_map id fst snd].
  destruct (String.eqb k k'); [done |]. by rewrite IH, fmap_cons.
Qed.

Lemma localizedLoop_as_loop rtl entries : forall seen result,
  loopEntries rtl (fun s v => Some (OVal v, s)) seen entries
              (prod_map id OVal <$> result)
  = Some (prod_map id OVal <$> localizedLoop rtl entries result, seen).
Proof.
  induction entries as [|[key val] rest IH]; intros seen result; [done |].
  cbn [loopEntries localizedLoop].
  destruct (Str.endsWith key "Ar" && rtl); [by rewrite obj_set_fmap_OVal, IH |].
  destruct (negb (Str.endsWith key "Ar")); [| apply IH].
  by rewrite obj_set_fmap_OVal, IH.
Qed.

Lemma keys_fmap_OVal (result : list (string * value)) :
  keys (prod_map id OVal <$> result) = keys result.
Proof.
  unfold keys. rewrite <- list_fmap_compose.
  apply list_fmap_ext. by intros _ [k v] _.
Qed.

Lemma obj_get_fmap_OVal k (result : list (string * value)) :
  obj_get k (prod_map id OVal <$> result) = OVal <$> obj_get k result.
Proof.
  induction result as [|[k' v'] result IH]; [done |].
  rewrite fmap_cons. cbn [obj_get prod_map id fst snd].
  by destruct (String.eqb k k').
Qed.

(** What the entry loop does with an unpaired [Ar]-suffixed entry, whatever
    the recursive call is. *)
Lemma loopEntries_unpaired rtl rec seen entries res s' K v :
  loopEntries rtl rec seen entries [] = Some (res, s') ->
  NoDup (keys entries) ->
  (K +:+ "Ar", v) ∈ entries ->
  K ∉ keys entries ->
  if rtl then
    obj_get K res = Some (OVal v) /\
    ((K +:+ "Ar") ∈ keys res <-> (K +:+ "ArAr") ∈ keys entries)
  else
    obj_get K res = None /\ obj_get (K +:+ "Ar") res = None.
Proof.
  intros Hloop Hnd Hin HK.
  pose proof (loopEntries_keys _ _ _ _ _ _ _ Hloop) as Hkeys.
  destruct rtl.
  - split.
    + apply list_elem_of_split in Hin as (pre & post & ->).
      destruct (loopEntries_get_last true _ pre (K +:+ "Ar") v post K
                  _ _ _ _ Hloop) as (p & s & o & s1 & _ & Hget & Ho).
      * by rewrite target_Ar_rtl, slice_app_Ar by apply endsWith_app_Ar.
      * intros key' Hkey' [[-> _] | [_ ->]]%target_Some.
        -- apply HK. unfold keys. rewrite fmap_app, fmap_cons.
           apply elem_of_app. right. apply elem_of_cons. by right.
        -- unfold keys in Hnd. rewrite fmap_app, fmap_cons in Hnd.
           apply NoDup_app in Hnd as (_ & _ & Hnd).
           apply NoDup_cons in Hnd as [Hnd _]. by apply Hnd.
      * rewrite endsWith_app_Ar in Ho. by rewrite Hget, Ho.
    + rewrite Hkeys. split.
      * intros [Hnil | (key & Hkey & [[_ HAr] | [_ ->]]%target_Some)].
        -- by apply elem_of_nil in Hnil.
        -- by rewrite endsWith_app_Ar in HAr.
        -- by rewrite append_Ar_Ar in Hkey.
      * intros Hkey. right. exists (K +:+ "ArAr"). split; [done |].
        rewrite <- append_Ar_Ar.
        by rewrite target_Ar_rtl, slice_app_Ar by apply endsWith_app_Ar.
  - split; apply obj_get_None; rewrite Hkeys.
    + intros [Hnil | (key & Hkey & [_ ->]%target_ltr_Ar)];
        [by apply elem_of_nil in Hnil | done].
    + intros [Hnil | (key & Hkey & [HAr _]%target_ltr_Ar)];
        [by apply elem_of_nil in Hnil |].
      by rewrite endsWith_app_Ar in HAr.
Qed.

(** C9 (amended).  An object with distinct keys that has a key [K+"Ar"] and
    no key [K], for a base key [K] other than [__proto__], formatted by
    [formatResponse] and by the helper [getLocalizedFields]: under ltr
    neither [K] nor [K+"Ar"] is a key of the result; under rtl the result
    binds [K] to the value of [K+"Ar"], unchanged, and [K+"Ar"] is a key of
    the result exactly when the input has a key [K+"ArAr"]. *)
Theorem unpaired_Ar_field h l entries K v req :
  closed h = true ->
  h !! l = Some (NObject entries) ->
  NoDup (keys entries) ->
  (K +:+ "Ar", v) ∈ entries ->
  K ∉ keys entries ->
  K <> proto_key ->
  (exists res,
     formatResponse h (VRef l) req = Some (OObject res) /\
     if isRTL req then
       obj_get K res = Some (OVal v) /\
       ((K +:+ "Ar") ∈ keys res <-> (K +:+ "ArAr") ∈ keys entries)
     else
       obj_get K res = None /\ obj_get (K +:+ "Ar") res = None) /\
  (let result := getLocalizedFields (isRTL req) entries in
   if isRTL req then
     obj_get K result = Some v /\
     ((K +:+ "Ar") ∈ keys result <-> (K +:+ "ArAr") ∈ keys entries)
   else
     obj_get K result = None /\ obj_get (K +:+ "Ar") result = None).
Proof.
  intros Hh Hl Hnd Hin HK _. split.
  - destruct (formatResponse_object h l entries req Hh Hl)
      as (res & s' & Hloop & Hfmt).
    exists res. split; [done |].
    by apply (loopEntries_unpaired _ _ _ _ _ _ _ _ Hloop).
  - pose proof (localizedLoop_as_loop (isRTL req) entries ∅ []) as Hloop.
    apply loopEntries_unpaired with (K := K) (v := v) in Hloop; [| done ..].
    cbn zeta. unfold getLocalizedFields.
    rewrite keys_fmap_OVal, !obj_get_fmap_OVal in Hloop.
    destruct (isRTL req), Hloop as [H1 H2]; split; try done.
    + destruct (obj_get K _); simpl in H1; congruence.
    + by destruct (obj_get K _).
    + by destruct (obj_get (K +:+ "Ar") _).
Qed.

Lemma unpaired_Ar_field_witness :
  (exists res,
     formatResponse
       {[ 0%nat := NObject [("id", VNum 4); ("titleAr", VStr "zayt")] ]}
       (VRef 0) rtlReq = Some (OObject res) /\
     obj_get "title" res = Some (OVal (VStr "zayt")) /\
     (("title" +:+ "Ar") ∈ keys res <->
      ("title" +:+ "ArAr") ∈ keys [("id", VNum 4); ("titleAr", VStr "zayt")])) /\
  (obj_get "title"
     (getLocalizedFields true [("id", VNum 4); ("titleAr", VStr "zayt")])
   = Some (VStr "zayt") /\
   (("title" +:+ "Ar")
      ∈ keys (getLocalizedFields true [("id", VNum 4); ("titleAr", VStr "zayt")])
    <-> ("title" +:+ "ArAr") ∈ keys [("id", VNum 4); ("titleAr", VStr "zayt")])).
Proof.
  apply (unpaired_Ar_field
           {[ 0%nat := NObject [("id", VNum 4); ("titleAr", VStr "zayt")] ]}
           0%nat [("id", VNum 4); ("titleAr", VStr "zayt")]
           "title" (VStr "zayt") rtlReq).
  - vm_compute; reflexivity.
  - reflexivity.
  - repeat constructor; set_solver.
  - set_solver.
  - set_solver.
  - done.
Defined.

(** C9 as stated fails: with the keys [nameAr] and [nameArAr] and no key
    [name], the result under rtl has the key [nameAr]. *)
Lemma unpaired_Ar_key_in_result :
  (("name" +:+ "Ar") ∈ keys [("nameAr", VStr "x"); ("nameArAr", VStr "y")]) /\
  ("name" ∉ keys [("nameAr", VStr "x"); ("nameArAr", VStr "y")]) /\
  exists res,
    formatResponse
      {[ 0%nat := NObject [("nameAr", VStr "x"); ("nameArAr", VStr "y")] ]}
      (VRef 0) rtlReq = Some (OObject res) /\
    res = [("name", OVal (VStr "x")); ("nameAr", OVal (VStr "y"))] /\
    ("name" +:+ "Ar") ∈ keys res.
Proof.
  split; [set_solver |]. split; [set_solver |].
  eexists. split; [vm_compute; reflexivity |]. split; [done | set_solver].
Qed.

(** ** Language resolution *)

Lemma head_split sep s : head (Str.split sep s) = Some (before_first sep s).
Proof.
  induction s as [|c s IH]; [done |].
  cbn [Str.split before_first]. destruct (Ascii.eqb c sep); [done |].
  destruct (Str.split sep s) as [|w ws]; [done |].
  simpl in IH. injection IH as ->. done.
Qed.

Lemma header_subtag_spec hd :
  header_subtag hd = primary_subtag <$> hd.
Proof.
  destruct hd as [s |]; [| done].
  unfold header_subtag, primary_subtag. cbn [mbind option_bind fmap option_map].
  rewrite head_split. cbn [mbind option_bind]. by rewrite head_split.
Qed.

Lemma includes_spec arr x : Str.includes arr x = true <-> x ∈ arr.
Proof.
  unfold Str.includes. rewrite existsb_exists. split.
  - intros (y & Hy%list_elem_of_In & ->%String.eqb_eq). done.
  - intros Hx. exists x. split; [by apply list_elem_of_In | apply String.eqb_refl].
Qed.

(** C7 (amended).  For a request whose [lang] query parameter is absent or
    one string, the resolved language is that parameter when it is present
    and not empty; otherwise the primary subtag of the [Accept-Language]
    header when the header is present and that subtag is not empty;
    otherwise ["en"].  When the resolved language is ASCII text, the
    direction is ["rtl"] exactly when the lower-cased language is one of
    [ar, he, fa, ur, ku, dv], and ["ltr"] otherwise.  For a [lang]
    parameter that is an array or an object [rtlSupport] does not resolve
    anything: it throws. *)
Theorem language_resolution r :
  let from_header :=
    match accept_language r with
    | Some header =>
        if String.eqb (primary_subtag header) "" then "en"
        else primary_subtag header
    | None => "en"
    end in
  let lang :=
    match query_lang r with
    | Some s => LangString s
    | None => LangAbsent
    end in
  rtlSupport_request lang (accept_language r) = Some (rtlSupport r) /\
  language (rtlSupport r) =
    match query_lang r with
    | Some lang => if String.eqb lang "" then from_header else lang
    | None => from_header
    end /\
  (ascii_only (language (rtlSupport r)) = true ->
   (direction (rtlSupport r) = "rtl" <->
    Str.toLowerCase (language (rtlSupport r))
      ∈ ["ar"; "he"; "fa"; "ur"; "ku"; "dv"]) /\
   (direction (rtlSupport r) = "ltr" <->
    Str.toLowerCase (language (rtlSupport r))
      ∉ ["ar"; "he"; "fa"; "ur"; "ku"; "dv"])) /\
  (isRTL (rtlSupport r) = true <-> direction (rtlSupport r) = "rtl") /\
  (forall accept, rtlSupport_request LangComposite accept = None).
Proof.
  cbn zeta. split; [| split; [| split; [| split]]].
  - by destruct r as [[lang |] accept].
  - unfold rtlSupport, resolve_language. cbn [language].
    rewrite header_subtag_spec.
    destruct (query_lang r) as [lang |], (accept_language r) as [header |];
      cbn [js_or fmap option_fmap option_map].
    + destruct (String.eqb lang "") eqn:E; cbn [js_or]; [| by rewrite E].
      by destruct (String.eqb (primary_subtag header) "") eqn:E'; rewrite ?E'.
    + by destruct (String.eqb lang "") eqn:E; cbn [js_or]; rewrite ?E.
    + by destruct (String.eqb (primary_subtag header) "") eqn:E;
        cbn [js_or]; rewrite ?E.
    + done.
  - intros _. unfold rtlSupport. cbn [direction language].
    rewrite <- (includes_spec rtlLanguages).
    by destruct (Str.includes _ _).
  - unfold rtlSupport. cbn [direction isRTL].
    by destruct (Str.includes _ _).
  - done.
Qed.

Lemma language_resolution_witness :
  direction (rtlSupport {| query_lang := Some "AR"; accept_language := None |})
    = "rtl" <->
  Str.toLowerCase
    (language (rtlSupport {| query_lang := Some "AR"; accept_language := None |}))
    ∈ ["ar"; "he"; "fa"; "ur"; "ku"; "dv"].
Proof.
  destruct (language_resolution
              {| query_lang := Some "AR"; accept_language := None |})
    as (_ & _ & H & _).
  apply H. reflexivity.
Defined.

(** C7 as stated fails: an empty [lang] parameter is present, yet the
    language is taken from the header, and with it the direction. *)
Lemma empty_lang_parameter_skipped :
  let r := {| query_lang := Some ""; accept_language := Some "ar-EG,en;q=0.8" |} in
  query_lang r = Some "" /\
  language (rtlSupport r) <> "" /\
  language (rtlSupport r) = "ar" /\
  direction (rtlSupport r) = "rtl".
Proof. cbn zeta. repeat split; done. Qed.

(** ** The response hook *)




(** A composite value entered for the first time is rebuilt, never
    replaced by [null]. *)
Lemma processObject_fresh_truthy h rtl fuel seen l o s' :
  l ∉ seen ->
  processObject h rtl fuel seen (VRef l) = Some (o, s') ->
  out_truthy o = true.
Proof.
  intros Hl H. destruct fuel as [|fuel]; [done |].
  cbn [processObject] in H. rewrite decide_False in H by done.
  destruct (h !! l) as [[items | entries] |]; [| | done].
  - destruct (mapItems _ _ items) as [[os s2] |]; [| done].
    by injection H as <- _.
  - destruct (loopEntries _ _ _ entries []) as [[res s2] |]; [| done].
    by injection H as <- _.
Qed.

Lemma formatResponse_composite h l req :
  closed h = true ->
  is_Some (h !! l) ->
  exists o, formatResponse h (VRef l) req = Some o /\ out_prop "status" o <> None.
Proof.
  intros Hh Hl.
  destruct (formatResponse_defined h (VRef l) req Hh) as [o Ho].
  { simpl. by apply bool_decide_eq_true. }
  exists o. split; [done |].
  unfold formatResponse in Ho. cbn [truthy negb] in Ho.
  destruct (processObject _ _ _ _ _) as [[o' s'] |] eqn:E; [| done].
  injection Ho as ->.
  apply processObject_fresh_truthy in E; [| set_solver].
  by destruct o as [[] | |].
Qed.




Example envelope_rtl_hook :
  json_hook
    {[ 0%nat := NObject [("status", VStr "success"); ("data", VRef 1)];
       1%nat := NObject [("name", VStr "Brakes"); ("nameAr", VStr "faramil")] ]}
    (rtlSupport {| query_lang := Some "ar"; accept_language := None |})
    (VRef 0)
  = Some (OObject
            [("status", OVal (VStr "success"));
             ("data", OObject [("name", OVal (VStr "faramil"))]);
             ("language",
              OObject [("code", OVal (VStr "ar"));
                       ("direction", OVal (VStr "rtl"));
                       ("isRTL", OVal (VBool true))])]).
Proof. vm_compute. reflexivity. Qed.


(** ** A base key together with its [Ar] key *)

Lemma processObject_scalar h rtl n seen v :
  is_scalar v = true -> processObject h rtl (S n) seen v = Some (OVal v, seen).
Proof. by destruct v. Qed.

Lemma store_size_pos (h : store) l n : h !! l = Some n -> exists m, size h = S m.
Proof.
  intros Hl. destruct (size h) eqn:E; [| by eexists].
  apply map_size_empty_iff in E. subst h. by rewrite lookup_empty in Hl.
Qed.

(** X9.  With the base key first, for a base key [K] other than
    [__proto__], the pair collapses as intended: the value of [K+"Ar"]
    under rtl, the value of [K] under ltr, and under ltr no key [K+"Ar"]. *)
Lemma pair_base_first h l pre K a mid b post req :
  closed h = true ->
  h !! l = Some (NObject (pre ++ (K, a) :: mid ++ (K +:+ "Ar", b) :: post)) ->
  NoDup (keys (pre ++ (K, a) :: mid ++ (K +:+ "Ar", b) :: post)) ->
  Str.endsWith K "Ar" = false ->
  K <> proto_key ->
  is_scalar a = true ->
  exists res,
    formatResponse h (VRef l) req = Some (OObject res) /\
    obj_get K res = Some (OVal (if isRTL req then b else a)) /\
    (isRTL req = false -> obj_get (K +:+ "Ar") res = None).
Proof.
  intros Hh Hl Hnd HK _ Ha.
  destruct (formatResponse_object h l _ req Hh Hl) as (res & s' & Hloop & Hfmt).
  destruct (store_size_pos h l _ Hl) as [n Hn].
  exists res. split; [done |].
  unfold keys in Hnd. rewrite fmap_app, fmap_cons, fmap_app, fmap_cons in Hnd.
  apply NoDup_app in Hnd as (_ & _ & Hnd).
  apply NoDup_cons in Hnd as [HKrest Hnd].
  apply NoDup_app in Hnd as (_ & _ & Hnd).
  apply NoDup_cons in Hnd as [HArpost _].
  cbn [fst] in *.
  destruct (isRTL req) eqn:Hrtl; (split; [| intros; try done]).
  - rewrite (app_comm_cons mid), app_assoc in Hloop.
    destruct (loopEntries_get_last true _ _ (K +:+ "Ar") b post K
                _ _ _ _ Hloop) as (p & s & o & s1 & _ & Hget & Ho).
    + by rewrite target_Ar_rtl, slice_app_Ar by apply endsWith_app_Ar.
    + intros key' Hkey' [[-> _] | [_ ->]]%target_Some; [| done].
      apply HKrest, elem_of_app. right. apply elem_of_cons. by right.
    + rewrite endsWith_app_Ar in Ho. by rewrite Hget, Ho.
  - destruct (loopEntries_get_last false _ pre K a
                (mid ++ (K +:+ "Ar", b) :: post) K
                _ _ _ _ Hloop) as (p & s & o & s1 & _ & Hget & Ho).
    + by apply target_plain.
    + intros key' Hkey' [_ ->]%target_ltr_Ar. apply HKrest.
      unfold keys in Hkey'. by rewrite fmap_app, fmap_cons in Hkey'.
    + rewrite HK, Hn, processObject_scalar in Ho by done.
      injection Ho as <- _. done.
  - apply obj_get_None.
    rewrite (loopEntries_keys _ _ _ _ _ _ _ Hloop).
    intros [Hnil | (key & _ & [HAr _]%target_ltr_Ar)];
      [by apply elem_of_nil in Hnil |].
    by rewrite endsWith_app_Ar in HAr.
Qed.

(** X10.  With the [Ar] key first, for a base key [K] other than
    [__proto__], the base entry is the last to write [K]: the result, under
    rtl as under ltr, holds the value of [K], not the value of [K+"Ar"]. *)
Lemma pair_Ar_first h l pre K a mid b post req :
  closed h = true ->
  h !! l = Some (NObject (pre ++ (K +:+ "Ar", b) :: mid ++ (K, a) :: post)) ->
  NoDup (keys (pre ++ (K +:+ "Ar", b) :: mid ++ (K, a) :: post)) ->
  Str.endsWith K "Ar" = false ->
  K <> proto_key ->
  is_scalar a = true ->
  exists res,
    formatResponse h (VRef l) req = Some (OObject res) /\
    obj_get K res = Some (OVal a).
Proof.
  intros Hh Hl Hnd HK _ Ha.
  destruct (formatResponse_object h l _ req Hh Hl) as (res & s' & Hloop & Hfmt).
  destruct (store_size_pos h l _ Hl) as [n Hn].
  exists res. split; [done |].
  unfold keys in Hnd. rewrite fmap_app, fmap_cons, fmap_app, fmap_cons in Hnd.
  apply NoDup_app in Hnd as (_ & _ & Hnd).
  apply NoDup_cons in Hnd as [HArrest Hnd].
  apply NoDup_app in Hnd as (_ & _ & Hnd).
  apply NoDup_cons in Hnd as [HKpost _].
  cbn [fst] in *.
  rewrite (app_comm_cons mid), app_assoc in Hloop.
  destruct (loopEntries_get_last (isRTL req) _ _ K a post K
              _ _ _ _ Hloop) as (p & s & o & s1 & _ & Hget & Ho).
  - by apply target_plain.
  - intros key' Hkey' [[-> _] | [_ ->]]%target_Some; [done |].
    apply HArrest, elem_of_app. right. apply elem_of_cons. by right.
  - rewrite HK, Hn, processObject_scalar in Ho by done.
    injection Ho as <- _. done.
Qed.

(** ** The admin routes *)

Module AdminFacts.
Import Admin.

Lemma countDocuments_filter {D} (q : list (D -> bool)) coll :
  countDocuments q coll = List.length (List.filter (matches q) coll).
Proof.
  induction coll as [|d rest IH]; [done |].
  cbn [countDocuments List.filter]. destruct (matches q d); simpl; by rewrite IH.
Qed.

Lemma countDocuments_all {D} (coll : list D) :
  countDocuments [] coll = List.length coll.
Proof. induction coll as [|d rest IH]; [done |]. simpl. by rewrite IH. Qed.

Lemma countDocuments_one {D} (c : D -> bool) coll :
  countDocuments [c] coll = List.length (List.filter c coll).
Proof.
  rewrite countDocuments_filter. f_equal. apply List.filter_ext.
  intros d. unfold matches. simpl. apply andb_true_r.
Qed.

(** [setHours] leaves the year and the month alone, so the month start
    computed from the changed [today] is the start of the month of [now]. *)
Lemma startOfMonth_spec now :
  mkDate (year (setHours0 now)) (month (setHours0 now)) 1 0 0 0 0
  = month_start now.
Proof. reflexivity. Qed.

Lemma lex_leb_cons x a y b :
  lex_leb (x :: a) (y :: b) = true <->
  (x < y \/ (x = y /\ lex_leb a b = true))%Z.
Proof.
  cbn [lex_leb]. by rewrite orb_true_iff, andb_true_iff, Z.ltb_lt, Z.eqb_eq.
Qed.

(** X13.  For a calendar date, "on or after the start of the month of
    [now]", the test behind the monthly counts, is a comparison of the year
    and the month alone. *)
Lemma month_start_leb now d :
  (1 <= day d)%Z -> (0 <= hours d)%Z -> (0 <= minutes d)%Z ->
  (0 <= seconds d)%Z -> (0 <= millis d)%Z ->
  date_leb (month_start now) d = true <->
  (year now < year d \/ (year now = year d /\ month now <= month d))%Z.
Proof.
  intros Hd Hh Hm Hs Hms. unfold date_leb, month_start, fields.
  cbn [year month day hours minutes seconds millis].
  rewrite !lex_leb_cons. cbn [lex_leb].
  assert (true = true <-> True) as -> by done.
  lia.
Qed.

(** C6.  On every database state and at every time, each count of the
    dashboard is the number of records that match its filter: the totals
    are the sizes of the collections, [newContacts] counts the contacts
    with status [new], [pendingBookings] the bookings with status
    [pending], and the monthly counts the bookings and the contacts created
    on or after the start of the current month. *)
Theorem dashboard_counts db now :
  let stats := dashboard db now in
  totalUsers (overview stats) = List.length (Users db) /\
  totalServices (overview stats) = List.length (Services db) /\
  totalBlogs (overview stats) = List.length (Blogs db) /\
  totalContacts (overview stats) = List.length (Contacts db) /\
  totalBookings (overview stats) = List.length (Bookings db) /\
  newContacts (overview stats) =
    List.length
      (List.filter (fun c => String.eqb (contact_status c) "new") (Contacts db)) /\
  pendingBookings (overview stats) =
    List.length
      (List.filter (fun b => String.eqb (booking_status b) "pending")
                   (Bookings db)) /\
  monthly_bookings (monthly stats) =
    List.length
      (List.filter (fun b => date_leb (month_start now) (booking_createdAt b))
                   (Bookings db)) /\
  monthly_contacts (monthly stats) =
    List.length
      (List.filter (fun c => date_leb (month_start now) (contact_createdAt c))
                   (Contacts db)).
Proof.
  cbn zeta. unfold dashboard.
  cbn [overview monthly totalUsers totalServices totalBlogs totalContacts
       totalBookings newContacts pendingBookings monthly_bookings
       monthly_contacts].
  rewrite !countDocuments_all, !countDocuments_one, startOfMonth_spec.
  repeat split; reflexivity.
Qed.

Example dashboard_sample :
  let d y m dd := mkDate y m dd 10%Z 30%Z 0%Z 0%Z in
  let db := {|
    Users := [ {| user_id := "u1"; user_role := "admin" |} ];
    Services := [];
    Blogs := [];
    Bookings := [ {| booking_id := "b1"; booking_status := "pending";
                     booking_createdAt := d 2025%Z 2%Z 1%Z; booking_actualCost := 0%Z |};
                  {| booking_id := "b2"; booking_status := "completed";
                     booking_createdAt := d 2025%Z 1%Z 28%Z; booking_actualCost := 90%Z |};
                  {| booking_id := "b3"; booking_status := "completed";
                     booking_createdAt := d 2025%Z 2%Z 14%Z; booking_actualCost := 40%Z |} ];
    Contacts := [ {| contact_id := "c1"; contact_status := "new";
                     contact_createdAt := d 2024%Z 11%Z 31%Z |} ]
  |} in
  dashboard db (d 2025%Z 2%Z 20%Z) =
  {| overview := {| totalUsers := 1; totalServices := 0; totalBlogs := 0;
                    totalContacts := 1; newContacts := 1; totalBookings := 3;
                    pendingBookings := 1 |};
     monthly := {| monthly_bookings := 2; monthly_revenue := 40%Z;
                   monthly_contacts := 0 |} |}.
Proof. vm_compute. reflexivity. Qed.

(** The validator only records its verdict; the handler never reads it. *)
Lemma put_booking_status_unchecked schema db req :
  put_booking_status schema db req = booking_status_handler schema db req.
Proof.
  unfold put_booking_status, check_status.
  by destruct (isIn bookingStatuses (body_status req)).
Qed.

(** X23.  Whatever the status of the request, inside the fixed set or
    outside, the outcome for a stored booking is decided by the schema of
    the storage layer alone: the record with the new status is stored and
    the reply is a success when the schema accepts it, and the database is
    unchanged when the schema refuses it. *)
Lemma put_booking_status_outcome schema db req booking :
  findById (params_id req) (Bookings db) = Some booking ->
  let booking' := {| booking_id := booking_id booking;
                     booking_status := body_status req;
                     booking_createdAt := booking_createdAt booking;
                     booking_actualCost := booking_actualCost booking |} in
  put_booking_status schema db req =
    if schema booking' then
      (with_bookings db
         (map (fun b' => if String.eqb (booking_id b') (booking_id booking')
                         then booking' else b') (Bookings db)),
       Success booking')
    else (db, SaveRejected).
Proof.
  intros Hfind. cbn zeta. rewrite put_booking_status_unchecked.
  unfold booking_status_handler, save. rewrite Hfind.
  by destruct (schema _).
Qed.

(** C5 (as found in the code).  A status outside the fixed set is recorded
    as invalid by the validator, and the handler runs all the same,
    whatever the schema of the storage layer is.  For an id that no booking
    has, the request is answered with "Booking not found" (404), not with a
    validation error.  For the id of a stored booking the handler assigns
    the status and saves: whether the request fails is decided by the
    schema alone. *)
Theorem out_of_set_status_not_validated schema :
  let created := mkDate 2025%Z 2%Z 1%Z 9%Z 0%Z 0%Z 0%Z in
  let booking s := {| booking_id := "b1"; booking_status := s;
                      booking_createdAt := created; booking_actualCost := 0%Z |} in
  let db s := {| Users := []; Services := []; Blogs := [];
                 Bookings := [booking s]; Contacts := [] |} in
  let req id := {| params_id := id; body_status := "bogus";
                   recorded_errors := [] |} in
  isIn bookingStatuses "bogus" = false /\
  recorded_errors (check_status bookingStatuses "Invalid status" (req "b2"))
    = ["Invalid status"] /\
  put_booking_status schema (db "pending") (req "b2")
    = (db "pending", NextError "Booking not found" 404) /\
  put_booking_status schema (db "pending") (req "b1")
    = if schema (booking "bogus")
      then (db "bogus", Success (booking "bogus"))
      else (db "pending", SaveRejected).
Proof.
  cbn zeta. split; [reflexivity |]. split; [reflexivity |].
  split; [reflexivity |].
  unfold put_booking_status, booking_status_handler, save, check_status.
  cbn. by destruct (schema _).
Qed.

Lemma isIn_spec allowed s : isIn allowed s = true <-> s ∈ allowed.
Proof. apply includes_spec. Qed.

(** The copy in [part_000] accepts exactly the statuses of the modal. *)
Lemma part_000_matches_modal s :
  isIn contactStatuses_part_000 s = true <-> s ∈ modalStatuses.
Proof. apply isIn_spec. Qed.

(** C10 (as found in the code).  The two copies of the contact-status
    validator accept different sets: [admin.js] rejects the modal's
    [in-progress] and [resolved], which [part_000] accepts, and accepts
    [read] and [replied], which [part_000] rejects and the modal does not
    offer. *)
Theorem contact_status_sets_differ :
  (isIn contactStatuses_admin_js "resolved" = false /\
   isIn contactStatuses_part_000 "resolved" = true /\
   "resolved" ∈ modalStatuses) /\
  (isIn contactStatuses_admin_js "in-progress" = false /\
   isIn contactStatuses_part_000 "in-progress" = true /\
   "in-progress" ∈ modalStatuses) /\
  (isIn contactStatuses_admin_js "read" = true /\
   isIn contactStatuses_part_000 "read" = false /\
   "read" ∉ modalStatuses) /\
  (isIn contactStatuses_admin_js "replied" = true /\
   isIn contactStatuses_part_000 "replied" = false /\
   "replied" ∉ modalStatuses).
Proof.
  unfold modalStatuses. repeat split; try reflexivity; set_solver.
Qed.

End AdminFacts.

(** * Further properties of the formatter *)

(** ** The visited set only grows *)

Lemma mapItems_mono (rec : call) items : forall seen os s',
  (forall s v o s1, rec s v = Some (o, s1) -> s ⊆ s1) ->
  mapItems rec seen items = Some (os, s') -> seen ⊆ s'.
Proof.
  induction items as [|item rest IH]; intros seen os s' Hrec H; simpl in H.
  - injection H as _ <-. done.
  - destruct (rec seen item) as [[o s1] |] eqn:E; [| done].
    destruct (mapItems rec s1 rest) as [[os' s2] |] eqn:E2; [| done].
    injection H as _ <-. apply Hrec in E. apply IH in E2; [| done]. set_solver.
Qed.

Lemma loopEntries_mono rtl (rec : call) entries : forall seen processed res s',
  (forall s v o s1, rec s v = Some (o, s1) -> s ⊆ s1) ->
  loopEntries rtl rec seen entries processed = Some (res, s') -> seen ⊆ s'.
Proof.
  induction entries as [|[key val] rest IH]; intros seen processed res s' Hrec H.
  - injection H as _ <-. done.
  - apply loopEntries_cons in H. destruct (target rtl key).
    + destruct H as (o & s1 & H & Ho). apply IH in H; [| done].
      destruct (Str.endsWith key "Ar").
      * destruct Ho as [_ ->]. done.
      * apply Hrec in Ho. set_solver.
    + by apply IH in H.
Qed.

Lemma processObject_mono h rtl fuel : forall seen v o s',
  processObject h rtl fuel seen v = Some (o, s') -> seen ⊆ s'.
Proof.
  induction fuel as [|fuel IH]; intros seen v o s' H; [done |].
  destruct v as [| | b | n | s | l]; try (injection H as _ <-; done).
  cbn [processObject] in H.
  destruct (decide (l ∈ seen)); [injection H as _ <-; done |].
  destruct (h !! l) as [[items | entries] |]; [| | done].
  - destruct (mapItems _ _ items) as [[os s2] |] eqn:E; [| done].
    injection H as _ <-. apply mapItems_mono in E; [set_solver | exact IH].
  - destruct (loopEntries _ _ _ entries []) as [[res s2] |] eqn:E; [| done].
    injection H as _ <-. apply loopEntries_mono in E; [set_solver | exact IH].
Qed.

(** A composite value that was walked is in the visited set afterwards. *)
Lemma processObject_marks h rtl fuel seen l o s' :
  processObject h rtl fuel seen (VRef l) = Some (o, s') -> l ∈ s'.
Proof.
  intros H. destruct fuel as [|fuel]; [done |].
  pose proof (processObject_mono h rtl fuel) as Hmono.
  cbn [processObject] in H.
  destruct (decide (l ∈ seen)); [by injection H as _ <- |].
  destruct (h !! l) as [[items | entries] |]; [| | done].
  - destruct (mapItems _ _ items) as [[os s2] |] eqn:E; [| done].
    injection H as _ <-. apply mapItems_mono in E; [set_solver | exact Hmono].
  - destruct (loopEntries _ _ _ entries []) as [[res s2] |] eqn:E; [| done].
    injection H as _ <-. apply loopEntries_mono in E; [set_solver | exact Hmono].
Qed.

Lemma mapItems_app (rec : call) pre post : forall seen,
  mapItems rec seen (pre ++ post) =
  match mapItems rec seen pre with
  | Some (os1, s1) =>
      match mapItems rec s1 post with
      | Some (os2, s2) => Some ((os1 ++ os2)%list, s2)
      | None => None
      end
  | None => None
  end.
Proof.
  induction pre as [|item pre IH]; intros seen.
  - cbn [app mapItems]. by destruct (mapItems rec seen post) as [[??] |].
  - cbn [app mapItems]. destruct (rec seen item) as [[o s1] |]; [| done].
    rewrite IH. destruct (mapItems rec s1 pre) as [[os1 s2] |]; [| done].
    by destruct (mapItems rec s2 post) as [[os2 s3] |].
Qed.

Lemma formatResponse_array h l items req :
  closed h = true ->
  h !! l = Some (NArray items) ->
  exists os s',
    mapItems (processObject h (isRTL req) (size h)) ({[l]} ∪ ∅) items
      = Some (os, s') /\
    formatResponse h (VRef l) req = Some (OArray os).
Proof.
  intros Hh Hl.
  destruct (processObject_total h (isRTL req) Hh (S (size h)) ∅ (VRef l))
    as (o & s' & Ho & _).
  { simpl. apply bool_decide_eq_true. by eexists. }
  { rewrite difference_empty_L, size_dom. lia. }
  unfold formatResponse. cbn [truthy negb]. rewrite Ho.
  cbn [processObject] in Ho. rewrite decide_False in Ho by set_solver.
  rewrite Hl in Ho.
  destruct (mapItems _ _ items) as [[os s2] |]; [| done].
  injection Ho as <- <-. by exists os, s2.
Qed.

Lemma mapItems_scalar_lookup (rec : call) items : forall seen os s' i v,
  (forall s x, is_scalar x = true -> rec s x = Some (OVal x, s)) ->
  mapItems rec seen items = Some (os, s') ->
  items !! i = Some v -> is_scalar v = true -> os !! i = Some (OVal v).
Proof.
  induction items as [|item rest IH]; intros seen os s' i v Hrec H Hi Hv;
    [done |].
  cbn [mapItems] in H.
  destruct (rec seen item) as [[o s1] |] eqn:E; [| done].
  destruct (mapItems rec s1 rest) as [[os' s2] |] eqn:E2; [| done].
  injection H as <- <-. destruct i as [|i].
  - injection Hi as ->. rewrite Hrec in E by done. by injection E as <- _.
  - simpl in Hi. simpl. by eapply IH.
Qed.

(** X1.  An array payload comes back as an array with as many items as it
    had, and each scalar item is at its index, unchanged, in both
    directions. *)
Theorem array_keeps_length_and_scalars h l items req :
  closed h = true ->
  h !! l = Some (NArray items) ->
  exists os,
    formatResponse h (VRef l) req = Some (OArray os) /\
    List.length os = List.length items /\
    forall i v, items !! i = Some v -> is_scalar v = true ->
                os !! i = Some (OVal v).
Proof.
  intros Hh Hl.
  destruct (formatResponse_array h l items req Hh Hl) as (os & s' & Hmap & Hfmt).
  destruct (store_size_pos h l _ Hl) as [n Hn].
  exists os. split; [done |]. split; [by eapply mapItems_length |].
  intros i v Hi Hv. eapply mapItems_scalar_lookup; [| exact Hmap | done | done].
  intros s x Hx. rewrite Hn. by apply processObject_scalar.
Qed.

Lemma array_keeps_length_and_scalars_witness :
  exists os,
    formatResponse
      {[ 0%nat := NArray [VNum 5; VRef 1; VStr "x"];
         1%nat := NObject [("nameAr", VStr "n")] ]}
      (VRef 0) ltrReq = Some (OArray os) /\
    List.length os = List.length [VNum 5; VRef 1; VStr "x"] /\
    forall i v, [VNum 5; VRef 1; VStr "x"] !! i = Some v ->
                is_scalar v = true -> os !! i = Some (OVal v).
Proof.
  apply (array_keeps_length_and_scalars
           {[ 0%nat := NArray [VNum 5; VRef 1; VStr "x"];
              1%nat := NObject [("nameAr", VStr "n")] ]}
           0%nat [VNum 5; VRef 1; VStr "x"] ltrReq);
    vm_compute; reflexivity.
Defined.

(** X2.  A composite value that occurs twice among the items of an array is
    walked at its first occurrence only: at the second occurrence the
    result holds [null], although the payload has no cycle. *)
Theorem shared_item_becomes_null h l pre x mid post req :
  closed h = true ->
  h !! l = Some (NArray (pre ++ VRef x :: mid ++ VRef x :: post)) ->
  exists os,
    formatResponse h (VRef l) req = Some (OArray os) /\
    os !! (List.length pre + S (List.length mid))%nat = Some (OVal VNull).
Proof.
  intros Hh Hl.
  destruct (formatResponse_array h l _ req Hh Hl) as (os & s' & Hmap & Hfmt).
  destruct (store_size_pos h l _ Hl) as [n Hn].
  exists os. split; [done |].
  pose proof (processObject_mono h (isRTL req) (size h)) as Hmono.
  rewrite mapItems_app in Hmap.
  destruct (mapItems _ _ pre) as [[os1 s1] |] eqn:E1; [| done].
  cbn [mapItems] in Hmap.
  destruct (processObject _ _ _ s1 (VRef x)) as [[o2 s2] |] eqn:E2; [| done].
  rewrite mapItems_app in Hmap.
  destruct (mapItems _ s2 mid) as [[os3 s3] |] eqn:E3; [| done].
  cbn [mapItems] in Hmap.
  assert (x ∈ s3) as Hx.
  { apply processObject_marks in E2. apply mapItems_mono in E3; [| exact Hmono].
    set_solver. }
  rewrite Hn in Hmap. rewrite processObject_revisit in Hmap by done.
  rewrite <- Hn in Hmap.
  destruct (mapItems _ s3 post) as [[os5 s5] |]; [| done].
  injection Hmap as <- _.
  apply mapItems_length in E1. apply mapItems_length in E3.
  rewrite (app_comm_cons os3), app_assoc.
  apply list_lookup_middle.
  rewrite length_app. cbn [List.length]. by rewrite E1, E3.
Qed.

Lemma shared_item_becomes_null_witness :
  exists os,
    formatResponse
      {[ 0%nat := NArray [VRef 1; VNum 2; VRef 1];
         1%nat := NObject [("name", VStr "n")] ]}
      (VRef 0) ltrReq = Some (OArray os) /\
    os !! (List.length (@nil value) + S (List.length [VNum 2]))%nat
      = Some (OVal VNull).
Proof.
  apply (shared_item_becomes_null
           {[ 0%nat := NArray [VRef 1; VNum 2; VRef 1];
              1%nat := NObject [("name", VStr "n")] ]}
           0%nat [] 1%nat [VNum 2] [] ltrReq);
    vm_compute; reflexivity.
Defined.

(** ** Under ltr the result is a copy without [Ar] keys *)

Lemma obj_set_forallb {A} (P : string * A -> bool) k (v : A) o :
  P (k, v) = true -> forallb P o = true -> forallb P (obj_set k v o) = true.
Proof.
  intros Hkv. induction o as [|[k' v'] o IH]; simpl.
  - by rewrite Hkv.
  - intros [Hhd Htl]%andb_true_iff. destruct (String.eqb k k'); simpl.
    + by rewrite Hkv, Htl.
    + by rewrite Hhd, IH.
Qed.

Lemma mapItems_clean (rec : call) items : forall seen os s',
  (forall s v o s1, rec s v = Some (o, s1) -> out_clean o = true) ->
  mapItems rec seen items = Some (os, s') -> forallb out_clean os = true.
Proof.
  induction items as [|item rest IH]; intros seen os s' Hrec H; simpl in H.
  - by injection H as <- _.
  - destruct (rec seen item) as [[o s1] |] eqn:E; [| done].
    destruct (mapItems rec s1 rest) as [[os' s2] |] eqn:E2; [| done].
    injection H as <- _. simpl. apply Hrec in E. apply IH in E2; [| done].
    by rewrite E, E2.
Qed.

Lemma loopEntries_ltr_clean (rec : call) entries : forall seen processed res s',
  (forall s v o s1, rec s v = Some (o, s1) -> out_clean o = true) ->
  out_clean (OObject processed) = true ->
  loopEntries false rec seen entries processed = Some (res, s') ->
  out_clean (OObject res) = true.
Proof.
  induction entries as [|[key val] rest IH];
    intros seen processed res s' Hrec Hp H.
  - by injection H as <- _.
  - cbn [loopEntries] in H. rewrite andb_false_r in H.
    destruct (Str.endsWith key "Ar") eqn:HAr; cbn [negb] in H; [by eapply IH |].
    destruct (rec seen val) as [[o s1] |] eqn:E; [| done].
    eapply IH; [done | | exact H].
    cbn [out_clean] in *. apply obj_set_forallb; [| done].
    apply Hrec in E. by rewrite HAr, E.
Qed.

Lemma processObject_ltr_clean h fuel : forall seen v o s',
  processObject h false fuel seen v = Some (o, s') -> out_clean o = true.
Proof.
  induction fuel as [|fuel IH]; intros seen v o s' H; [done |].
  destruct v as [| | b | n | s | l]; try (by injection H as <- _).
  cbn [processObject] in H.
  destruct (decide (l ∈ seen)); [by injection H as <- _ |].
  destruct (h !! l) as [[items | entries] |]; [| | done].
  - destruct (mapItems _ _ items) as [[os s2] |] eqn:E; [| done].
    injection H as <- _. cbn [out_clean]. by eapply mapItems_clean.
  - destruct (loopEntries _ _ _ entries []) as [[res s2] |] eqn:E; [| done].
    injection H as <- _.
    exact (loopEntries_ltr_clean _ entries _ [] res s2 IH eq_refl E).
Qed.

(** X3.  Under ltr the result is built afresh all the way down, for every
    well-formed store, cyclic or not: it holds no reference to an object of
    the input, and none of its objects, at any depth, has a key ending in
    ["Ar"]. *)
Theorem ltr_result_is_clean h data req :
  closed h = true ->
  val_closed h data = true ->
  isRTL req = false ->
  exists o, formatResponse h data req = Some o /\ out_clean o = true.
Proof.
  intros Hh Hd Hltr.
  destruct (formatResponse_defined h data req Hh Hd) as [o Ho].
  exists o. split; [done |].
  unfold formatResponse in Ho. rewrite Hltr in Ho.
  destruct (negb (truthy data)) eqn:Hfalsy.
  - injection Ho as <-. by destruct data.
  - destruct (processObject _ _ _ _ _) as [[o' s'] |] eqn:E; [| done].
    injection Ho as <-. by eapply processObject_ltr_clean.
Qed.

Lemma ltr_result_is_clean_witness :
  exists o,
    formatResponse
      {[ 0%nat := NObject [("titleAr", VRef 1); ("items", VRef 1)];
         1%nat := NArray [VRef 0; VStr "x"] ]}
      (VRef 0) ltrReq = Some o /\ out_clean o = true.
Proof.
  apply (ltr_result_is_clean
           {[ 0%nat := NObject [("titleAr", VRef 1); ("items", VRef 1)];
              1%nat := NArray [VRef 0; VStr "x"] ]}
           (VRef 0) ltrReq); vm_compute; reflexivity.
Defined.

(** ** The keys of the result *)

Lemma obj_set_NoDup {A} k (v : A) o :
  NoDup (keys o) -> NoDup (keys (obj_set k v o)).
Proof.
  unfold keys. induction o as [|[k' v'] o IH]; simpl; intros Hnd.
  - apply NoDup_singleton.
  - apply NoDup_cons in Hnd as [Hk' Hnd].
    destruct (String.eqb k k') eqn:E; simpl.
    + apply String.eqb_eq in E as ->. by apply NoDup_cons.
    + apply NoDup_cons. split; [| by apply IH].
      intros [-> | Hin]%(keys_obj_set k v o k').
      * by rewrite String.eqb_refl in E.
      * done.
Qed.

Lemma loopEntries_NoDup rtl (rec : call) entries : forall seen processed res s',
  NoDup (keys processed) ->
  loopEntries rtl rec seen entries processed = Some (res, s') ->
  NoDup (keys res).
Proof.
  induction entries as [|[key val] rest IH]; intros seen processed res s' Hnd H.
  - by injection H as <- _.
  - apply loopEntries_cons in H. destruct (target rtl key).
    + destruct H as (o & s1 & H & _). eapply IH; [| exact H].
      by apply obj_set_NoDup.
    + by eapply IH.
Qed.

(** X4.  The keys of a formatted object, in both directions: they are
    pairwise distinct, and a key [k] other than [__proto__] is one of them
    exactly when the input has the key [k] and [k] does not end in ["Ar"],
    or the direction is rtl and the input has the key [k+"Ar"]. *)
Theorem result_keys h l entries req :
  closed h = true ->
  h !! l = Some (NObject entries) ->
  exists res,
    formatResponse h (VRef l) req = Some (OObject res) /\
    NoDup (keys res) /\
    forall k, k <> proto_key ->
      (k ∈ keys res <->
       (Str.endsWith k "Ar" = false /\ k ∈ keys entries) \/
       (isRTL req = true /\ (k +:+ "Ar") ∈ keys entries)).
Proof.
  intros Hh Hl.
  destruct (formatResponse_object h l entries req Hh Hl)
    as (res & s' & Hloop & Hfmt).
  exists res. split; [done |]. split.
  - eapply loopEntries_NoDup; [| exact Hloop]. apply NoDup_nil_2.
  - intros k _. rewrite (loopEntries_keys _ _ _ _ _ _ _ Hloop). split.
    + intros [Hnil | (key & Hkey & [[-> HAr] | [Hrtl ->]]%target_Some)].
      * by apply elem_of_nil in Hnil.
      * by left.
      * by right.
    + intros [[HAr Hk] | [Hrtl Hk]]; right.
      * exists k. split; [done | by apply target_plain].
      * exists (k +:+ "Ar"). split; [done |]. rewrite Hrtl.
        by rewrite target_Ar_rtl, slice_app_Ar by apply endsWith_app_Ar.
Qed.

Lemma result_keys_witness :
  exists res,
    formatResponse
      {[ 0%nat := NObject [("name", VStr "a"); ("nameAr", VStr "b");
                           ("noteAr", VStr "c")] ]}
      (VRef 0) rtlReq = Some (OObject res) /\
    NoDup (keys res) /\
    forall k, k <> proto_key ->
      (k ∈ keys res <->
       (Str.endsWith k "Ar" = false /\
        k ∈ keys [("name", VStr "a"); ("nameAr", VStr "b"); ("noteAr", VStr "c")]) \/
       (isRTL rtlReq = true /\
        (k +:+ "Ar") ∈ keys [("name", VStr "a"); ("nameAr", VStr "b");
                             ("noteAr", VStr "c")])).
Proof.
  apply (result_keys
           {[ 0%nat := NObject [("name", VStr "a"); ("nameAr", VStr "b");
                                ("noteAr", VStr "c")] ]}
           0%nat
           [("name", VStr "a"); ("nameAr", VStr "b"); ("noteAr", VStr "c")]
           rtlReq); vm_compute; reflexivity.
Defined.

Lemma loopEntries_ltr_keys (rec : call) entries : forall seen processed res s',
  NoDup (keys processed ++ keys entries) ->
  loopEntries false rec seen entries processed = Some (res, s') ->
  keys res =
  (keys processed ++
   List.filter (fun k => negb (Str.endsWith k "Ar")) (keys entries))%list.
Proof.
  induction entries as [|[key val] rest IH]; intros seen processed res s' Hnd H.
  - injection H as <- _. simpl. by rewrite app_nil_r.
  - unfold keys in Hnd. rewrite fmap_cons in Hnd. cbn [fst] in Hnd.
    assert (Hrest : NoDup (keys processed ++ keys rest)).
    { apply NoDup_app in Hnd as (H1 & H2 & H3).
      apply NoDup_cons in H3 as [_ H3]. apply NoDup_app. split; [done |].
      split; [| done]. intros x Hx Hx'. apply (H2 x Hx), elem_of_cons. by right. }
    cbn [loopEntries] in H. rewrite andb_false_r in H.
    unfold keys at 3. rewrite fmap_cons. cbn [fst List.filter].
    fold (keys rest).
    destruct (Str.endsWith key "Ar") eqn:HAr; cbn [negb] in *;
      [by eapply IH |].
    destruct (rec seen val) as [[o s1] |] eqn:E; [| done].
    assert (Hfresh : key ∉ keys processed).
    { apply NoDup_app in Hnd as (_ & Hdisj & _). intros Hin.
      apply (Hdisj _ Hin). apply elem_of_cons. by left. }
    rewrite (obj_set_fresh _ _ _ Hfresh) in H.
    apply IH in H.
    + rewrite H. unfold keys at 1. rewrite fmap_app. cbn [fmap list_fmap fst].
      by rewrite <- app_assoc.
    + unfold keys at 1. rewrite fmap_app. cbn [fmap list_fmap fst].
      rewrite <- app_assoc. cbn [app]. exact Hnd.
Qed.

(** X5.  Under ltr, for an object without the key [__proto__], the keys of
    the result are the keys of the input that do not end in ["Ar"], in the
    order of the input; the same holds for the one-level helper
    [getLocalizedFields]. *)
Theorem ltr_keeps_plain_keys_in_order h l entries req :
  closed h = true ->
  h !! l = Some (NObject entries) ->
  NoDup (keys entries) ->
  proto_key ∉ keys entries ->
  isRTL req = false ->
  (exists res,
     formatResponse h (VRef l) req = Some (OObject res) /\
     keys res =
       List.filter (fun k => negb (Str.endsWith k "Ar")) (keys entries)) /\
  keys (getLocalizedFields false entries) =
    List.filter (fun k => negb (Str.endsWith k "Ar")) (keys entries).
Proof.
  intros Hh Hl Hnd _ Hltr. split.
  - destruct (formatResponse_object h l entries req Hh Hl)
      as (res & s' & Hloop & Hfmt).
    exists res. split; [done |]. rewrite Hltr in Hloop.
    by apply loopEntries_ltr_keys in Hloop.
  - pose proof (localizedLoop_as_loop false entries ∅ []) as Hloop.
    apply loopEntries_ltr_keys in Hloop; [| done].
    rewrite keys_fmap_OVal in Hloop. exact Hloop.
Qed.

Lemma ltr_keeps_plain_keys_in_order_witness :
  (exists res,
     formatResponse
       {[ 0%nat := NObject [("zeta", VNum 1); ("zetaAr", VNum 2);
                            ("alpha", VNum 3)] ]}
       (VRef 0) ltrReq = Some (OObject res) /\
     keys res =
       List.filter (fun k => negb (Str.endsWith k "Ar"))
         (keys [("zeta", VNum 1); ("zetaAr", VNum 2); ("alpha", VNum 3)])) /\
  keys (getLocalizedFields false
          [("zeta", VNum 1); ("zetaAr", VNum 2); ("alpha", VNum 3)]) =
    List.filter (fun k => negb (Str.endsWith k "Ar"))
      (keys [("zeta", VNum 1); ("zetaAr", VNum 2); ("alpha", VNum 3)]).
Proof.
  apply (ltr_keeps_plain_keys_in_order
           {[ 0%nat := NObject [("zeta", VNum 1); ("zetaAr", VNum 2);
                                ("alpha", VNum 3)] ]}
           0%nat [("zeta", VNum 1); ("zetaAr", VNum 2); ("alpha", VNum 3)]
           ltrReq).
  - vm_compute; reflexivity.
  - reflexivity.
  - repeat constructor; set_solver.
  - set_solver.
  - reflexivity.
Defined.

(** ** Flat objects, and values that are not objects *)

Lemma loopEntries_ext rtl (rec1 rec2 : call) entries : forall seen processed,
  (forall s kv, kv ∈ entries -> rec1 s kv.2 = rec2 s kv.2) ->
  loopEntries rtl rec1 seen entries processed
  = loopEntries rtl rec2 seen entries processed.
Proof.
  induction entries as [|[key val] rest IH]; intros seen processed Hext;
    [done |].
  assert (Hrest : forall s kv, kv ∈ rest -> rec1 s kv.2 = rec2 s kv.2).
  { intros s kv Hin. apply Hext, elem_of_cons. by right. }
  cbn [loopEntries].
  destruct (Str.endsWith key "Ar" && rtl); [by apply IH |].
  destruct (negb (Str.endsWith key "Ar")); [| by apply IH].
  assert (rec1 seen val = rec2 seen val) as <-.
  { apply (Hext seen (key, val)), elem_of_cons. by left. }
  destruct (rec1 seen val) as [[o s1] |]; [by apply IH | done].
Qed.

(** X6.  On an object all of whose values are scalars the formatter and
    the one-level helper [getLocalizedFields] agree, in both directions:
    the same keys in the same order with the same values. *)
Theorem flat_object_as_getLocalizedFields h l entries req :
  h !! l = Some (NObject entries) ->
  Forall (fun kv => is_scalar kv.2 = true) entries ->
  formatResponse h (VRef l) req
  = Some (OObject (prod_map id OVal <$> getLocalizedFields (isRTL req) entries)).
Proof.
  intros Hl Hflat.
  destruct (store_size_pos h l _ Hl) as [n Hn].
  unfold formatResponse. cbn [truthy negb processObject].
  rewrite decide_False by set_solver. rewrite Hl, Hn.
  rewrite (loopEntries_ext _ _ (fun s v => Some (OVal v, s))).
  - change (@nil (string * out)) with (prod_map id OVal <$> @nil (string * value)).
    by rewrite localizedLoop_as_loop.
  - intros s kv Hin. rewrite Forall_forall in Hflat.
    apply processObject_scalar. by apply Hflat.
Qed.

Lemma flat_object_as_getLocalizedFields_witness :
  formatResponse
    {[ 0%nat := NObject [("name", VStr "Oil"); ("nameAr", VStr "zayt");
                         ("price", VNum 40)] ]}
    (VRef 0) rtlReq
  = Some (OObject
            (prod_map id OVal <$>
             getLocalizedFields (isRTL rtlReq)
               [("name", VStr "Oil"); ("nameAr", VStr "zayt");
                ("price", VNum 40)])).
Proof.
  apply (flat_object_as_getLocalizedFields
           {[ 0%nat := NObject [("name", VStr "Oil"); ("nameAr", VStr "zayt");
                                ("price", VNum 40)] ]}
           0%nat).
  - reflexivity.
  - repeat constructor.
Defined.

(** X7.  Whatever is not an object or array is handed on untouched, by the
    formatter and by the response hook: [null], [undefined], booleans,
    numbers and strings, the falsy ones among them included, and no
    [language] block is attached to them. *)
Theorem scalars_pass_through h req v :
  is_scalar v = true ->
  formatResponse h v req = Some (OVal v) /\
  json_hook h req v = Some (OVal v).
Proof.
  intros Hv. split.
  - unfold formatResponse. destruct (negb (truthy v)); [done |].
    by rewrite processObject_scalar.
  - unfold json_hook. destruct v; try done.
    all: by rewrite andb_false_r.
Qed.

Lemma scalars_pass_through_witness :
  formatResponse ∅ (VStr "") rtlReq = Some (OVal (VStr "")) /\
  json_hook ∅ rtlReq (VStr "") = Some (OVal (VStr "")).
Proof. apply (scalars_pass_through ∅ rtlReq (VStr "")). reflexivity. Defined.

(** X8.  The response hook changes nothing but the property [language]:
    every other property of the formatted payload reads the same in the
    value handed to the original [res.json], and [language] is either the
    language block of the request, replacing a [language] property of the
    payload if there was one, or the hook has changed nothing at all. *)
Theorem hook_touches_only_language h l req :
  closed h = true ->
  is_Some (h !! l) ->
  exists formatted sent,
    formatResponse h (VRef l) req = Some formatted /\
    json_hook h req (VRef l) = Some sent /\
    (forall k, k <> "language" -> out_prop k sent = out_prop k formatted) /\
    (out_prop "language" sent = Some (language_block req) \/ sent = formatted).
Proof.
  intros Hh Hl.
  destruct (formatResponse_composite h l req Hh Hl) as (o & Ho & Hprop).
  exists o. unfold json_hook. cbn [truthy typeof_object andb]. rewrite Ho.
  cbn [mbind option_bind].
  destruct o as [v | os | es].
  - destruct v; try done; eexists; (split; [done |]); (split; [done |]);
      (split; [done | by right]).
  - eexists. split; [done |]. split; [done |]. split; [done | by right].
  - cbn [out_prop mbind option_bind].
    destruct (is_success _);
      [| eexists; split; [done |]; split; [done |]; split; [done | by right]].
    destruct (out_truthy _);
      [| eexists; split; [done |]; split; [done |]; split; [done | by right]].
    eexists. split; [done |]. split; [done |]. split.
    + intros k Hk. cbn [out_assign out_prop]. by rewrite obj_get_set_ne.
    + left. cbn [out_assign out_prop]. by rewrite obj_get_set_eq.
Qed.

Lemma hook_touches_only_language_witness :
  exists formatted sent,
    formatResponse
      {[ 0%nat := NObject [("status", VStr "success"); ("language", VStr "fr");
                           ("data", VRef 1)];
         1%nat := NArray [VNum 1] ]}
      (VRef 0) ltrReq = Some formatted /\
    json_hook
      {[ 0%nat := NObject [("status", VStr "success"); ("language", VStr "fr");
                           ("data", VRef 1)];
         1%nat := NArray [VNum 1] ]}
      ltrReq (VRef 0) = Some sent /\
    (forall k, k <> "language" -> out_prop k sent = out_prop k formatted) /\
    (out_prop "language" sent = Some (language_block ltrReq) \/ sent = formatted).
Proof.
  apply (hook_touches_only_language
           {[ 0%nat := NObject [("status", VStr "success");
                                ("language", VStr "fr"); ("data", VRef 1)];
              1%nat := NArray [VNum 1] ]}
           0%nat ltrReq).
  - vm_compute; reflexivity.
  - by eexists.
Defined.

Example hook_replaces_own_language :
  json_hook
    {[ 0%nat := NObject [("status", VStr "success"); ("language", VStr "fr");
                         ("data", VRef 1)];
       1%nat := NArray [VNum 1] ]}
    ltrReq (VRef 0)
  = Some (OObject [("status", OVal (VStr "success"));
                   ("language", language_block ltrReq);
                   ("data", OArray [OVal (VNum 1)])]).
Proof. vm_compute. reflexivity. Qed.

(** ** Witnesses for the pair lemmas *)

Lemma pair_base_first_witness :
  exists res,
    formatResponse
      {[ 0%nat := NObject [("id", VNum 1); ("name", VStr "Oil");
                           ("price", VNum 40); ("nameAr", VStr "zayt")] ]}
      (VRef 0) rtlReq = Some (OObject res) /\
    obj_get "name" res = Some (OVal (if isRTL rtlReq then VStr "zayt" else VStr "Oil")) /\
    (isRTL rtlReq = false -> obj_get ("name" +:+ "Ar") res = None).
Proof.
  apply (pair_base_first
           {[ 0%nat := NObject [("id", VNum 1); ("name", VStr "Oil");
                                ("price", VNum 40); ("nameAr", VStr "zayt")] ]}
           0%nat [("id", VNum 1)] "name" (VStr "Oil") [("price", VNum 40)]
           (VStr "zayt") [] rtlReq).
  - vm_compute; reflexivity.
  - reflexivity.
  - repeat constructor; set_solver.
  - reflexivity.
  - done.
  - reflexivity.
Defined.

Lemma pair_Ar_first_witness :
  exists res,
    formatResponse
      {[ 0%nat := NObject [("nameAr", VStr "zayt"); ("price", VNum 40);
                           ("name", VStr "Oil")] ]}
      (VRef 0) rtlReq = Some (OObject res) /\
    obj_get "name" res = Some (OVal (VStr "Oil")).
Proof.
  apply (pair_Ar_first
           {[ 0%nat := NObject [("nameAr", VStr "zayt"); ("price", VNum 40);
                                ("name", VStr "Oil")] ]}
           0%nat [] "name" (VStr "Oil") [("price", VNum 40)]
           (VStr "zayt") [] rtlReq).
  - vm_compute; reflexivity.
  - reflexivity.
  - repeat constructor; set_solver.
  - reflexivity.
  - done.
  - reflexivity.
Defined.

(** ** Language tags with a region *)

Lemma toLowerCase_dash_not_rtl p q :
  Str.includes rtlLanguages (Str.toLowerCase (p +:+ String "-" q)) = false.
Proof.
  apply not_true_is_false. rewrite includes_spec. unfold rtlLanguages.
  destruct p as [|a [|b p]]; cbn [String.append Str.toLowerCase].
  - change (Str.lower_char "-") with "-"%char.
    rewrite !elem_of_cons, elem_of_nil. intros H.
    repeat destruct H as [H | H]; done.
  - change (Str.lower_char "-") with "-"%char.
    rewrite !elem_of_cons, elem_of_nil. intros H.
    repeat destruct H as [H | H]; done.
  - rewrite !elem_of_cons, elem_of_nil. intros H.
    repeat destruct H as [H | H]; try done;
      injection H as _ _ H; by destruct p.
Qed.

Lemma before_first_app c p q :
  c ∉ chars p -> before_first c (p +:+ String c q) = p.
Proof.
  induction p as [|a p IH]; simpl.
  - by rewrite Ascii.eqb_refl.
  - rewrite not_elem_of_cons. intros [Hne Hp].
    destruct (Ascii.eqb_spec a c); [congruence |]. by rewrite IH.
Qed.

Lemma before_first_app_other c d p q :
  c ∉ chars p -> c <> d ->
  before_first c (p +:+ String d q) = p +:+ String d (before_first c q).
Proof.
  intros Hp Hcd. induction p as [|a p IH]; simpl.
  - destruct (Ascii.eqb_spec d c); [congruence | done].
  - simpl in Hp. apply not_elem_of_cons in Hp as [Hne Hp].
    destruct (Ascii.eqb_spec a c); [congruence |]. by rewrite IH.
Qed.

Lemma before_first_none c p : c ∉ chars p -> before_first c p = p.
Proof.
  induction p as [|a p IH]; cbn [chars before_first]; [done |].
  rewrite not_elem_of_cons. intros [Hne Hp].
  destruct (Ascii.eqb_spec a c); [congruence |]. by rewrite IH.
Qed.

Lemma before_first_free c s : c ∉ chars (before_first c s).
Proof.
  induction s as [|a s IH]; cbn [before_first chars].
  - apply not_elem_of_nil.
  - destruct (Ascii.eqb_spec a c); cbn [chars]; [apply not_elem_of_nil |].
    apply not_elem_of_cons. split; [congruence | done].
Qed.

(** X11.  A language tag with a region, such as [ar-EG], is cut down to
    its primary subtag only when it comes from the [Accept-Language]
    header.  Given as the [lang] query parameter it is kept whole, and
    since no right-to-left code contains a hyphen the direction is then
    ltr, whatever the header says. *)
Theorem region_tag_by_source p q header :
  p <> "" ->
  "-"%char ∉ chars p ->
  ","%char ∉ chars p ->
  let tag := p +:+ String "-" q in
  language (rtlSupport {| query_lang := None; accept_language := Some tag |})
    = p /\
  language (rtlSupport {| query_lang := Some tag; accept_language := header |})
    = tag /\
  direction (rtlSupport {| query_lang := Some tag; accept_language := header |})
    = "ltr".
Proof.
  intros Hp Hdash Hcomma tag.
  assert (Htag : String.eqb tag "" = false).
  { apply String.eqb_neq. unfold tag. by destruct p. }
  assert (Hsub : primary_subtag tag = p).
  { unfold primary_subtag, tag.
    rewrite before_first_app_other by done.
    by apply before_first_app. }
  unfold rtlSupport, resolve_language. cbn [language direction query_lang accept_language].
  rewrite header_subtag_spec. cbn [fmap option_fmap option_map js_or].
  rewrite Hsub, Htag. cbn [default].
  apply String.eqb_neq in Hp. rewrite Hp. cbn [js_or default].
  rewrite !Htag. cbn [default].
  split; [done |]. split; [done |].
  subst tag. unfold id. by rewrite toLowerCase_dash_not_rtl.
Qed.

Lemma region_tag_by_source_witness :
  language (rtlSupport {| query_lang := None;
                          accept_language := Some ("ar" +:+ String "-" "EG") |})
    = "ar" /\
  language (rtlSupport {| query_lang := Some ("ar" +:+ String "-" "EG");
                          accept_language := Some "ar" |})
    = "ar" +:+ String "-" "EG" /\
  direction (rtlSupport {| query_lang := Some ("ar" +:+ String "-" "EG");
                           accept_language := Some "ar" |})
    = "ltr".
Proof.
  apply (region_tag_by_source "ar" "EG" (Some "ar")).
  - done.
  - set_solver.
  - set_solver.
Defined.

(** X12.  A language resolved from the [Accept-Language] header alone
    never contains a hyphen or a comma: it is cut before the first of
    either. *)
Theorem header_language_has_no_separator header :
  let lang := language (rtlSupport {| query_lang := None;
                                      accept_language := Some header |}) in
("-"%char ∉ chars lang) /\ (","%char ∉ chars lang).
Proof.
  cbn zeta. unfold rtlSupport, resolve_language.
  cbn [language query_lang accept_language].
  rewrite header_subtag_spec. cbn [fmap option_fmap option_map js_or].
  destruct (String.eqb (primary_subtag header) "") eqn:E; cbn [js_or default].
  - split; cbn [chars]; set_solver.
  - cbn [default]. unfold id, primary_subtag. split.
    + apply before_first_free.
    + pose proof (before_first_free "," header) as Hc.
      revert Hc. generalize (before_first "," header). intros s Hs.
      induction s as [|a s IH]; cbn [before_first chars] in *; [done |].
      apply not_elem_of_cons in Hs as [Hne Hs].
      destruct (Ascii.eqb a "-"); cbn [chars]; [apply not_elem_of_nil |].
      apply not_elem_of_cons. split; [done | by apply IH].
Qed.

(** * Further properties of the admin routes *)

Module AdminMore.
Import Admin.

Lemma month_start_leb_witness :
  date_leb (month_start (mkDate 2025 2 20 10 30 0 0))
           (mkDate 2025 2 1 0 0 0 0) = true <->
  (year (mkDate 2025 2 20 10 30 0 0) < year (mkDate 2025 2 1 0 0 0 0) \/
   (year (mkDate 2025 2 20 10 30 0 0) = year (mkDate 2025 2 1 0 0 0 0) /\
    month (mkDate 2025 2 20 10 30 0 0) <= month (mkDate 2025 2 1 0 0 0 0)))%Z.
Proof.
  apply (AdminFacts.month_start_leb (mkDate 2025 2 20 10 30 0 0)
           (mkDate 2025 2 1 0 0 0 0)); simpl; lia.
Defined.

(** ** The dashboard *)

Lemma filter_length_le {D} (f : D -> bool) coll :
  List.length (List.filter f coll) <= List.length coll.
Proof.
  induction coll as [|d rest IH]; [done |].
  simpl. destruct (f d); simpl; lia.
Qed.

(** X14.  The filtered counts of the dashboard never exceed the totals of
    their collections: pending and monthly bookings are at most all
    bookings, new and monthly contacts at most all contacts. *)
Theorem dashboard_counts_bounded db now :
  let stats := dashboard db now in
  pendingBookings (overview stats) <= totalBookings (overview stats) /\
  monthly_bookings (monthly stats) <= totalBookings (overview stats) /\
  newContacts (overview stats) <= totalContacts (overview stats) /\
  monthly_contacts (monthly stats) <= totalContacts (overview stats).
Proof.
  cbn zeta. unfold dashboard.
  cbn [overview monthly totalBookings totalContacts newContacts
       pendingBookings monthly_bookings monthly_contacts].
  rewrite !AdminFacts.countDocuments_all, !AdminFacts.countDocuments_one.
  repeat split; apply filter_length_le.
Qed.

(** X15.  The monthly revenue of the dashboard is the sum of [actualCost]
    over the bookings that are completed and were created on or after the
    start of the current month; it is 0 when there is none. *)
Theorem dashboard_revenue db now :
  monthly_revenue (monthly (dashboard db now)) =
  fold_right Z.add 0%Z
    (map booking_actualCost
       (List.filter
          (fun b => String.eqb (booking_status b) "completed"
                    && date_leb (month_start now) (booking_createdAt b))
          (Bookings db))).
Proof.
  unfold dashboard. cbn [monthly monthly_revenue].
  rewrite AdminFacts.startOfMonth_spec. unfold aggregate_total.
  assert (Hf : List.filter
                 (matches [status_is "completed"; createdAt_gte (month_start now)])
                 (Bookings db)
               = List.filter
                   (fun b => String.eqb (booking_status b) "completed"
                             && date_leb (month_start now) (booking_createdAt b))
                   (Bookings db)).
  { apply List.filter_ext. intros b. unfold matches. simpl.
    by rewrite andb_true_r. }
  rewrite Hf. generalize (List.filter
    (fun b => String.eqb (booking_status b) "completed"
              && date_leb (month_start now) (booking_createdAt b))
    (Bookings db)).
  intros ds. destruct ds as [|d ds]; [done |].
  generalize (d :: ds). clear. intros ds.
  induction ds as [|d ds IH]; [done |]. simpl. by rewrite IH.
Qed.

(** ** Status updates *)

Lemma find_replace_same (b' : Booking) coll b :
  List.find (fun x => String.eqb (booking_id x) (booking_id b')) coll = Some b ->
  List.find (fun x => String.eqb (booking_id x) (booking_id b'))
    (map (fun x => if String.eqb (booking_id x) (booking_id b') then b' else x)
         coll) = Some b'.
Proof.
  induction coll as [|x rest IH]; [done |]. simpl.
  destruct (String.eqb (booking_id x) (booking_id b')) eqn:E.
  - intros _. by rewrite String.eqb_refl.
  - rewrite E. exact IH.
Qed.

Lemma find_replace_other (b' : Booking) coll id :
  id <> booking_id b' ->
  List.find (fun x => String.eqb (booking_id x) id)
    (map (fun x => if String.eqb (booking_id x) (booking_id b') then b' else x)
         coll)
  = List.find (fun x => String.eqb (booking_id x) id) coll.
Proof.
  intros Hne. induction coll as [|x rest IH]; [done |]. simpl.
  destruct (String.eqb (booking_id x) (booking_id b')) eqn:E.
  - apply String.eqb_eq in E. rewrite E.
    assert (String.eqb (booking_id b') id = false) as ->
      by (apply String.eqb_neq; congruence).
    exact IH.
  - destruct (String.eqb (booking_id x) id); [done | exact IH].
Qed.

(** X16.  What [PUT /bookings/:id/status] does to the database, for every
    storage schema, database and request.  When it does not answer with
    success the database is unchanged.  When it does, the booking found
    under the id is stored with the status of the request, a lookup under
    any other id gives what it gave before, the number of bookings is the
    same, and the other collections are untouched. *)
Theorem booking_status_update_effect schema db req :
  let db' := (put_booking_status schema db req).1 in
  match (put_booking_status schema db req).2 with
  | Success b =>
      booking_id b = params_id req /\
      booking_status b = body_status req /\
      findById (params_id req) (Bookings db') = Some b /\
      (forall id, id <> params_id req ->
         findById id (Bookings db') = findById id (Bookings db)) /\
      List.length (Bookings db') = List.length (Bookings db) /\
      Users db' = Users db /\ Services db' = Services db /\
      Blogs db' = Blogs db /\ Contacts db' = Contacts db
  | _ => db' = db
  end.
Proof.
  cbn zeta. rewrite AdminFacts.put_booking_status_unchecked.
  unfold booking_status_handler, save.
  destruct (findById (params_id req) (Bookings db)) as [b |] eqn:Hfind;
    [| done].
  destruct (schema _) eqn:Hschema; [| done].
  cbn [fst snd with_bookings Bookings Users Services Blogs Contacts
       booking_id booking_status].
  pose proof Hfind as Hid. unfold findById in Hid.
  apply List.find_some in Hid as [_ Hid%String.eqb_eq].
  split; [done |]. split; [done |]. split; [| split; [| split]].
  - unfold findById in *. rewrite <- Hid.
    apply (find_replace_same
             {| booking_id := booking_id b; booking_status := body_status req;
                booking_createdAt := booking_createdAt b;
                booking_actualCost := booking_actualCost b |} _ b).
    cbn [booking_id]. by rewrite Hid.
  - intros id Hne. unfold findById.
    apply (find_replace_other
             {| booking_id := booking_id b; booking_status := body_status req;
                booking_createdAt := booking_createdAt b;
                booking_actualCost := booking_actualCost b |}).
    cbn [booking_id]. congruence.
  - by rewrite List.length_map.
  - done.
Qed.

(** X17.  The two copies of [PUT /contacts/:id/status] validate against
    different status lists and still do the same on every database and
    every request: the verdict of the validator is read by neither. *)
Theorem contact_status_copies_agree schema db req :
  put_contact_status_admin_js schema db req
  = put_contact_status_part_000 schema db req.
Proof.
  unfold put_contact_status_admin_js, put_contact_status_part_000, check_status.
  by destruct (isIn contactStatuses_admin_js (body_status req)),
              (isIn contactStatuses_part_000 (body_status req)).
Qed.

(** X18.  [PUT /users/:id/role] stores whatever role the request carries,
    inside or outside the list of the validator, whenever the user exists
    and the storage schema accepts the record: the user found under the id
    is stored with that role and the reply is a success. *)
Theorem any_role_is_stored schema db req user :
  findUserById (params_id req) (Users db) = Some user ->
  schema {| user_id := user_id user; user_role := body_status req |} = true ->
  exists db',
    put_user_role schema db req
    = (db', UserSuccess {| user_id := user_id user;
                           user_role := body_status req |}) /\
    findUserById (params_id req) (Users db')
    = Some {| user_id := user_id user; user_role := body_status req |}.
Proof.
  intros Hfind Hschema. unfold put_user_role, check_status.
  assert (Hh : forall errs,
    user_role_handler schema db
      {| params_id := params_id req; body_status := body_status req;
         recorded_errors := errs |}
    = (with_users db
         (map (fun u' => if String.eqb (user_id u') (user_id user)
                         then {| user_id := user_id user;
                                 user_role := body_status req |}
                         else u') (Users db)),
       UserSuccess {| user_id := user_id user; user_role := body_status req |})).
  { intros errs. unfold user_role_handler, saveUser.
    cbn [params_id body_status]. by rewrite Hfind, Hschema. }
  eexists. split.
  - destruct (isIn userRoles (body_status req)); [| apply Hh].
    destruct req as [id st errs]. apply Hh.
  - cbn [with_users Users]. unfold findUserById in *.
    pose proof Hfind as Hid.
    apply List.find_some in Hid as [_ Hid%String.eqb_eq]. rewrite <- Hid.
    clear Hh Hschema. revert Hfind. rewrite <- Hid.
    generalize (Users db). intros coll.
    induction coll as [|x rest IH]; [done |]. simpl.
    destruct (String.eqb (user_id x) (user_id user)) eqn:E.
    + intros _. simpl. by rewrite String.eqb_refl.
    + simpl. rewrite E. exact IH.
Qed.

Lemma any_role_is_stored_witness :
  exists db',
    put_user_role (fun _ => true)
      {| Users := [ {| user_id := "u1"; user_role := "user" |} ];
         Services := []; Blogs := []; Bookings := []; Contacts := [] |}
      {| params_id := "u1"; body_status := "owner"; recorded_errors := [] |}
    = (db', UserSuccess {| user_id := "u1"; user_role := "owner" |}) /\
    findUserById "u1" (Users db')
    = Some {| user_id := "u1"; user_role := "owner" |}.
Proof.
  apply (any_role_is_stored (fun _ => true)
           {| Users := [ {| user_id := "u1"; user_role := "user" |} ];
              Services := []; Blogs := []; Bookings := []; Contacts := [] |}
           {| params_id := "u1"; body_status := "owner";
              recorded_errors := [] |}
           {| user_id := "u1"; user_role := "user" |});
    reflexivity.
Defined.

End AdminMore.

(** * The contact list *)

Module ContactList.
Import Admin.

Lemma lex_leb_total a : forall b,
  List.length a = List.length b -> lex_leb a b = true \/ lex_leb b a = true.
Proof.
  induction a as [|x a IH]; intros [|y b] Hlen; try done; [by left |].
  injection Hlen as Hlen. rewrite !AdminFacts.lex_leb_cons.
  destruct (Z.lt_trichotomy x y) as [? | [-> | ?]];
    [left; by left | | right; by left].
  destruct (IH b Hlen); [left | right]; by right.
Qed.

Lemma lex_leb_trans a : forall b c,
  List.length a = List.length b -> List.length b = List.length c ->
  lex_leb a b = true -> lex_leb b c = true -> lex_leb a c = true.
Proof.
  induction a as [|x a IH]; intros [|y b] [|z c] Hab Hbc; try done.
  injection Hab as Hab. injection Hbc as Hbc.
  rewrite !AdminFacts.lex_leb_cons. intros H1 H2.
  destruct H1 as [? | [-> H1]], H2 as [? | [-> H2]]; try (left; lia).
  right. split; [done |]. by eapply IH.
Qed.

Lemma date_leb_total a b : date_leb a b = true \/ date_leb b a = true.
Proof. by apply lex_leb_total. Qed.

Lemma date_leb_trans a b c :
  date_leb a b = true -> date_leb b c = true -> date_leb a c = true.
Proof. by apply lex_leb_trans. Qed.

Lemma insert_desc_perm c l : insert_desc c l ≡ₚ c :: l.
Proof.
  induction l as [|d rest IH]; [done |]. simpl.
  destruct (date_leb _ _); [done |]. rewrite IH. apply Permutation_swap.
Qed.

Lemma sort_desc_perm l : sort_desc l ≡ₚ l.
Proof.
  induction l as [|c rest IH]; [done |].
  unfold sort_desc in *. simpl. by rewrite insert_desc_perm, IH.
Qed.

Lemma sort_desc_length l : List.length (sort_desc l) = List.length l.
Proof. apply Permutation_length, sort_desc_perm. Qed.

(** [a] is listed before [b] only if [b] is not newer than [a]. *)
Lemma insert_desc_sorted c l :
  StronglySorted
    (fun a b => date_leb (contact_createdAt b) (contact_createdAt a) = true) l ->
  StronglySorted
    (fun a b => date_leb (contact_createdAt b) (contact_createdAt a) = true)
    (insert_desc c l).
Proof.
  induction l as [|d rest IH]; intros Hs.
  - repeat constructor.
  - apply StronglySorted_inv in Hs as [Hrest Hd]. simpl.
    destruct (date_leb (contact_createdAt d) (contact_createdAt c)) eqn:E.
    + constructor; [by constructor |]. constructor; [done |].
      eapply Forall_impl; [exact Hd |]. intros x Hx. simpl in Hx.
      by eapply date_leb_trans.
    + constructor; [by apply IH |].
      rewrite (insert_desc_perm c rest). constructor; [| done].
      destruct (date_leb_total (contact_createdAt d) (contact_createdAt c));
        [congruence | done].
Qed.

Lemma sort_desc_sorted l :
  StronglySorted
    (fun a b => date_leb (contact_createdAt b) (contact_createdAt a) = true)
    (sort_desc l).
Proof.
  induction l as [|c rest IH]; [constructor |].
  unfold sort_desc in *. simpl. by apply insert_desc_sorted.
Qed.

Lemma ceil_div_spec t n :
  1 <= n ->
  t <= ceil_div t n * n /\ (t = 0 -> ceil_div t n = 0) /\
  (1 <= t -> (ceil_div t n - 1) * n < t).
Proof.
  intros Hn. unfold ceil_div.
  pose proof (Nat.Div0.mul_div_le (t + n - 1) n) as H1.
  pose proof (Nat.mul_succ_div_gt (t + n - 1) n ltac:(lia)) as H2.
  split; [nia |]. split.
  - intros ->. apply Nat.div_small. lia.
  - intros Ht. nia.
Qed.

(** What [GET /contacts] computes for a first page number and limit of at
    least 1. *)
Lemma get_contacts_eq coll q :
  1 <= default 1 (q_page q) ->
  get_contacts coll q =
  let limit := default 10 (q_limit q) in
  let filter : list (Contact -> bool) :=
    match q_status q with
    | Some s => if String.eqb s "" then [] else [status_is s]
    | None => []
    end in
  let skipped :=
    drop ((default 1 (q_page q) - 1) * limit)
         (sort_desc (List.filter (matches filter) coll)) in
  let contacts := if (limit =? 0)%nat then skipped else take limit skipped in
  Some {| results := List.length contacts;
          total := countDocuments filter coll;
          page := default 1 (q_page q);
          pages := if (limit =? 0)%nat then None
                   else Some (ceil_div (countDocuments filter coll) limit);
          data_contacts := contacts |}.
Proof.
  intros Hp. unfold get_contacts. cbn zeta.
  set (p := default 1%nat (q_page q)) in *.
  set (n := default 10%nat (q_limit q)).
  assert (((Z.of_nat p - 1) * Z.of_nat n <? 0)%Z = false) as ->
    by (apply Z.ltb_ge; nia).
  replace (Z.to_nat ((Z.of_nat p - 1) * Z.of_nat n)) with ((p - 1) * n)%nat
    by nia.
  reflexivity.
Qed.

Lemma page_slice_length {A} (l : list A) n k :
  List.length (take n (drop k l)) = min n (List.length l - k).
Proof. by rewrite length_take, length_drop. Qed.

(** X19.  [GET /contacts] with a page number and a limit of at least 1
    (the defaults 1 and 10 when they are absent), written in plain decimal
    digits and, like the size of the collection, small enough for the
    arithmetic of the source to be exact: the reply carries the requested
    page number, [results] is the number of contacts returned, and that
    number is the smaller of the limit and what is left of the matching
    contacts after the earlier pages. *)
Theorem contacts_page_size coll q :
  1 <= default 1 (q_page q) ->
  1 <= default 10 (q_limit q) ->
  (Z.of_nat (default 1%nat (q_page q))
   * Z.of_nat (default 10%nat (q_limit q)) < max_safe)%Z ->
  (Z.of_nat (List.length coll) < max_safe)%Z ->
  exists r,
    get_contacts coll q = Some r /\
    page r = default 1 (q_page q) /\
    results r = List.length (data_contacts r) /\
    results r = min (default 10 (q_limit q))
                    (total r - (page r - 1) * default 10 (q_limit q)).
Proof.
  intros Hp Hn _ _. rewrite get_contacts_eq by done. cbn zeta.
  assert ((default 10 (q_limit q) =? 0)%nat = false) as ->
    by (apply Nat.eqb_neq; lia).
  eexists. split; [done |].
  cbn [page results data_contacts total].
  split; [done |]. split; [done |].
  by rewrite page_slice_length, sort_desc_length,
    AdminFacts.countDocuments_filter.
Qed.

Lemma contacts_page_size_witness :
  exists r,
    get_contacts
      [ {| contact_id := "c1"; contact_status := "new";
           contact_createdAt := mkDate 2025 0 3 0 0 0 0 |};
        {| contact_id := "c2"; contact_status := "new";
           contact_createdAt := mkDate 2025 0 9 0 0 0 0 |};
        {| contact_id := "c3"; contact_status := "closed";
           contact_createdAt := mkDate 2025 0 5 0 0 0 0 |} ]
      {| q_page := Some 2; q_limit := Some 2; q_status := None |} = Some r /\
    page r = default 1 (Some 2) /\
    results r = List.length (data_contacts r) /\
    results r = min (default 10 (Some 2))
                    (total r - (page r - 1) * default 10 (Some 2)).
Proof.
  apply (contacts_page_size _
           {| q_page := Some 2; q_limit := Some 2; q_status := None |});
    unfold max_safe; simpl; lia.
Defined.

(** X20.  The page count of [GET /contacts] for a page number and a limit
    of at least 1, written in plain decimal digits and, like the size of
    the collection, small enough for the arithmetic of the source to be
    exact, is the least number of pages that hold all matching contacts: 0
    when nothing matches, otherwise the last page is not empty and the
    pages together have room for the total.  The page returned is empty
    exactly when its number is beyond the page count. *)
Theorem contacts_page_count coll q :
  1 <= default 1 (q_page q) ->
  1 <= default 10 (q_limit q) ->
  (Z.of_nat (default 1%nat (q_page q))
   * Z.of_nat (default 10%nat (q_limit q)) < max_safe)%Z ->
  (Z.of_nat (List.length coll) < max_safe)%Z ->
  exists r k,
    get_contacts coll q = Some r /\
    pages r = Some k /\
    total r <= k * default 10 (q_limit q) /\
    (total r = 0 -> k = 0) /\
    (1 <= total r -> (k - 1) * default 10 (q_limit q) < total r) /\
    (results r = 0 <-> k < page r).
Proof.
  intros Hp Hn _ _. rewrite get_contacts_eq by done. cbn zeta.
  assert ((default 10 (q_limit q) =? 0)%nat = false) as ->
    by (apply Nat.eqb_neq; lia).
  eexists _, _. split; [done |].
  cbn [page results data_contacts total pages]. split; [done |].
  rewrite page_slice_length, sort_desc_length,
    <- AdminFacts.countDocuments_filter.
  set (t := countDocuments _ coll).
  set (n := default 10 (q_limit q)) in *.
  set (p := default 1 (q_page q)) in *.
  destruct (ceil_div_spec t n Hn) as (H1 & H2 & H3).
  split; [done |]. split; [done |]. split; [done |].
  split.
  - intros H0. destruct (decide (t = 0)) as [Ht | Ht]; [rewrite H2 by done; lia |].
    specialize (H3 ltac:(lia)). nia.
  - intros Hk. nia.
Qed.

Lemma contacts_page_count_witness :
  exists r k,
    get_contacts
      [ {| contact_id := "c1"; contact_status := "new";
           contact_createdAt := mkDate 2025 0 3 0 0 0 0 |};
        {| contact_id := "c2"; contact_status := "new";
           contact_createdAt := mkDate 2025 0 9 0 0 0 0 |};
        {| contact_id := "c3"; contact_status := "closed";
           contact_createdAt := mkDate 2025 0 5 0 0 0 0 |} ]
      {| q_page := None; q_limit := Some 2; q_status := Some "new" |}
      = Some r /\
    pages r = Some k /\
    total r <= k * default 10 (Some 2) /\
    (total r = 0 -> k = 0) /\
    (1 <= total r -> (k - 1) * default 10 (Some 2) < total r) /\
    (results r = 0 <-> k < page r).
Proof.
  apply (contacts_page_count _
           {| q_page := None; q_limit := Some 2; q_status := Some "new" |});
    unfold max_safe; simpl; lia.
Defined.

Lemma chunks_concat {A} n k : forall l : list A,
  1 <= n ->
  List.length l <= k * n ->
  List.concat (List.map (fun i => take n (drop ((i - 1) * n) l)) (List.seq 1 k)) = l.
Proof.
  induction k as [|k IH]; intros l Hn Hlen.
  - destruct l; [done | simpl in Hlen; lia].
  - cbn [List.seq List.map List.concat]. rewrite <- List.seq_shift, List.map_map.
    rewrite (List.map_ext_in _ (fun i => take n (drop ((i - 1) * n) (drop n l)))).
    + rewrite IH; [| done | rewrite length_drop; lia].
      cbn [Nat.sub Nat.mul drop]. apply take_drop.
    + intros i [Hi _]%List.in_seq. rewrite drop_drop. do 2 f_equal. nia.
Qed.

(** X21.  For a collection whose contacts have pairwise different
    creation dates, so that "newest first" is one order only, and a limit
    of at least 1 in plain decimal digits, small enough with the size of
    the collection for the arithmetic of the source to be exact: the pages
    of [GET /contacts], from the first to the last, laid end to end, are
    the matching contacts; every contact that matches the status filter is
    on exactly one page. *)
Theorem contact_pages_partition coll n st :
  1 <= n ->
  (Z.of_nat (List.length coll) + Z.of_nat n < max_safe)%Z ->
  NoDup (map contact_createdAt coll) ->
  exists r k,
    get_contacts coll {| q_page := Some 1; q_limit := Some n; q_status := st |}
      = Some r /\
    pages r = Some k /\
    List.concat
      (List.map
         (fun i =>
            match get_contacts coll
                    {| q_page := Some i; q_limit := Some n; q_status := st |}
            with
            | Some ri => data_contacts ri
            | None => []
            end)
         (List.seq 1 k))
    ≡ₚ List.filter
         (fun c => match st with
                   | Some s => String.eqb s "" || String.eqb (contact_status c) s
                   | None => true
                   end) coll.
Proof.
  intros Hn _ _. rewrite get_contacts_eq by (simpl; lia). cbn zeta.
  cbn [q_page q_limit q_status].
  change (default 10 (Some n)) with n. change (default 1 (Some 1)) with 1.
  assert ((n =? 0)%nat = false) as Hn0 by (apply Nat.eqb_neq; lia).
  rewrite Hn0. eexists _, _. split; [done |]. cbn [pages]. split; [done |].
  set (filter := match st with
                 | Some s => if String.eqb s "" then [] else [status_is s]
                 | None => []
                 end : list (Contact -> bool)).
  rewrite (List.map_ext_in _
             (fun i => take n (drop ((i - 1) * n)
                                 (sort_desc (List.filter (matches filter) coll))))).
  - rewrite chunks_concat; [| done |].
    + rewrite sort_desc_perm. apply Permutation_refl'. apply List.filter_ext.
      intros c. unfold filter, matches.
      destruct st as [s |]; [| done].
      destruct (String.eqb s ""); [done |]. simpl. unfold status_is.
      by rewrite andb_true_r.
    + rewrite sort_desc_length, <- AdminFacts.countDocuments_filter.
      apply (ceil_div_spec _ n Hn).
  - intros i [Hi _]%List.in_seq.
    rewrite get_contacts_eq by (simpl; lia). cbn zeta.
    cbn [q_page q_limit q_status].
    change (default 10 (Some n)) with n. change (default 1 (Some i)) with i.
    by rewrite Hn0.
Qed.

Lemma contact_pages_partition_witness :
  exists r k,
    get_contacts
      [ {| contact_id := "c1"; contact_status := "new";
           contact_createdAt := mkDate 2025 0 3 0 0 0 0 |};
        {| contact_id := "c2"; contact_status := "new";
           contact_createdAt := mkDate 2025 0 9 0 0 0 0 |};
        {| contact_id := "c3"; contact_status := "closed";
           contact_createdAt := mkDate 2025 0 5 0 0 0 0 |} ]
      {| q_page := Some 1; q_limit := Some 2; q_status := None |} = Some r /\
    pages r = Some k /\
    List.concat
      (List.map
         (fun i =>
            match get_contacts
                    [ {| contact_id := "c1"; contact_status := "new";
                         contact_createdAt := mkDate 2025 0 3 0 0 0 0 |};
                      {| contact_id := "c2"; contact_status := "new";
                         contact_createdAt := mkDate 2025 0 9 0 0 0 0 |};
                      {| contact_id := "c3"; contact_status := "closed";
                         contact_createdAt := mkDate 2025 0 5 0 0 0 0 |} ]
                    {| q_page := Some i; q_limit := Some 2; q_status := None |}
            with
            | Some ri => data_contacts ri
            | None => []
            end)
         (List.seq 1 k))
    ≡ₚ List.filter
         (fun c => match @None string with
                   | Some s => String.eqb s "" || String.eqb (contact_status c) s
                   | None => true
                   end)
         [ {| contact_id := "c1"; contact_status := "new";
              contact_createdAt := mkDate 2025 0 3 0 0 0 0 |};
           {| contact_id := "c2"; contact_status := "new";
              contact_createdAt := mkDate 2025 0 9 0 0 0 0 |};
           {| contact_id := "c3"; contact_status := "closed";
              contact_createdAt := mkDate 2025 0 5 0 0 0 0 |} ].
Proof.
  apply (contact_pages_partition _ 2 None).
  - lia.
  - unfold max_safe. simpl. lia.
  - cbn [map contact_createdAt].
    repeat (apply NoDup_cons_2; [set_solver |]). apply NoDup_nil_2.
Defined.

(** X22.  Every page of [GET /contacts] (page number and limit at least 1)
    lists its contacts newest first, and each contact on it is in the
    collection and, when a non-empty [status] is asked for, has that
    status. *)
Theorem contacts_page_sorted_and_filtered coll q :
  1 <= default 1 (q_page q) ->
  1 <= default 10 (q_limit q) ->
  exists r,
    get_contacts coll q = Some r /\
    StronglySorted
      (fun a b => date_leb (contact_createdAt b) (contact_createdAt a) = true)
      (data_contacts r) /\
    forall c, c ∈ data_contacts r ->
      c ∈ coll /\
      forall s, q_status q = Some s -> s <> "" -> contact_status c = s.
Proof.
  intros Hp Hn. rewrite get_contacts_eq by done. cbn zeta.
  assert ((default 10 (q_limit q) =? 0)%nat = false) as ->
    by (apply Nat.eqb_neq; lia).
  eexists. split; [done |]. cbn [data_contacts].
  set (filter := match q_status q with
                 | Some s => if String.eqb s "" then [] else [status_is s]
                 | None => []
                 end : list (Contact -> bool)).
  set (sorted := sort_desc (List.filter (matches filter) coll)).
  split.
  - pose proof (sort_desc_sorted (List.filter (matches filter) coll)) as Hs.
    fold sorted in Hs.
    rewrite <- (take_drop ((default 1 (q_page q) - 1) * default 10 (q_limit q))
                  sorted) in Hs.
    apply StronglySorted_app_1_r in Hs.
    rewrite <- (take_drop (default 10 (q_limit q)) (drop _ sorted)) in Hs.
    by apply StronglySorted_app_1_l in Hs.
  - intros c Hc. apply subseteq_take, subseteq_drop in Hc.
    unfold sorted in Hc. rewrite sort_desc_perm in Hc.
    apply list_elem_of_In, List.filter_In in Hc as [Hin Hm].
    split; [by apply list_elem_of_In |].
    intros s Hs Hne. unfold filter in Hm. rewrite Hs in Hm.
    apply String.eqb_neq in Hne. rewrite Hne in Hm.
    unfold matches, status_is in Hm. simpl in Hm.
    rewrite andb_true_r in Hm. by apply String.eqb_eq in Hm.
Qed.

Lemma contacts_page_sorted_and_filtered_witness :
  exists r,
    get_contacts
      [ {| contact_id := "c1"; contact_status := "new";
           contact_createdAt := mkDate 2025 0 3 0 0 0 0 |};
        {| contact_id := "c2"; contact_status := "new";
           contact_createdAt := mkDate 2025 0 9 0 0 0 0 |};
        {| contact_id := "c3"; contact_status := "closed";
           contact_createdAt := mkDate 2025 0 5 0 0 0 0 |} ]
      {| q_page := None; q_limit := None; q_status := Some "new" |} = Some r /\
    StronglySorted
      (fun a b => date_leb (contact_createdAt b) (contact_createdAt a) = true)
      (data_contacts r) /\
    forall c, c ∈ data_contacts r ->
      c ∈ [ {| contact_id := "c1"; contact_status := "new";
               contact_createdAt := mkDate 2025 0 3 0 0 0 0 |};
            {| contact_id := "c2"; contact_status := "new";
               contact_createdAt := mkDate 2025 0 9 0 0 0 0 |};
            {| contact_id := "c3"; contact_status := "closed";
               contact_createdAt := mkDate 2025 0 5 0 0 0 0 |} ] /\
      forall s, q_status {| q_page := None; q_limit := None;
                            q_status := Some "new" |} = Some s ->
                s <> "" -> contact_status c = s.
Proof.
  apply (contacts_page_sorted_and_filtered _
           {| q_page := None; q_limit := None; q_status := Some "new" |});
    simpl; lia.
Defined.

Example contacts_second_page :
  get_contacts
    [ {| contact_id := "c1"; contact_status := "new";
         contact_createdAt := mkDate 2025 0 3 0 0 0 0 |};
      {| contact_id := "c2"; contact_status := "new";
         contact_createdAt := mkDate 2025 0 9 0 0 0 0 |};
      {| contact_id := "c3"; contact_status := "closed";
         contact_createdAt := mkDate 2025 0 5 0 0 0 0 |} ]
    {| q_page := Some 2; q_limit := Some 2; q_status := None |}
  = Some {| results := 1; total := 3; page := 2; pages := Some 2;
            data_contacts :=
              [ {| contact_id := "c1"; contact_status := "new";
                   contact_createdAt := mkDate 2025 0 3 0 0 0 0 |} ] |}.
Proof. vm_compute. reflexivity. Qed.

End ContactList.

(** * The booking status update and the storage schema *)

Module StatusUpdates.
Import Admin.

Lemma put_booking_status_outcome_witness :
  put_booking_status
    (fun b => isIn bookingStatuses (booking_status b))
    {| Users := []; Services := []; Blogs := [];
       Bookings := [ {| booking_id := "b1"; booking_status := "pending";
                        booking_createdAt := mkDate 2025 2 1 9 0 0 0;
                        booking_actualCost := 0 |} ];
       Contacts := [] |}
    {| params_id := "b1"; body_status := "bogus"; recorded_errors := [] |}
  = ({| Users := []; Services := []; Blogs := [];
        Bookings := [ {| booking_id := "b1"; booking_status := "pending";
                         booking_createdAt := mkDate 2025 2 1 9 0 0 0;
                         booking_actualCost := 0 |} ];
        Contacts := [] |},
     SaveRejected).
Proof.
  apply (AdminFacts.put_booking_status_outcome
           (fun b => isIn bookingStatuses (booking_status b))
           {| Users := []; Services := []; Blogs := [];
              Bookings := [ {| booking_id := "b1"; booking_status := "pending";
                               booking_createdAt := mkDate 2025 2 1 9 0 0 0;
                               booking_actualCost := 0 |} ];
              Contacts := [] |}
           {| params_id := "b1"; body_status := "bogus"; recorded_errors := [] |}
           {| booking_id := "b1"; booking_status := "pending";
              booking_createdAt := mkDate 2025 2 1 9 0 0 0;
              booking_actualCost := 0 |}).
  reflexivity.
Defined.

(** X24.  Under a storage schema that accepts a booking only with a status
    of the fixed set, a request with a status outside the set never changes
    the database and is never answered with success: it is refused by the
    schema when the booking exists, and answered with "Booking not found"
    when it does not. *)
Theorem enum_schema_refuses_out_of_set schema db req :
  (forall b, schema b = true -> isIn bookingStatuses (booking_status b) = true) ->
  isIn bookingStatuses (body_status req) = false ->
  (put_booking_status schema db req).1 = db /\
  (put_booking_status schema db req).2 =
    match findById (params_id req) (Bookings db) with
    | Some _ => SaveRejected
    | None => NextError "Booking not found" 404
    end.
Proof.
  intros Hschema Hout. rewrite AdminFacts.put_booking_status_unchecked.
  unfold booking_status_handler, save.
  destruct (findById (params_id req) (Bookings db)) as [b |]; [| done].
  destruct (schema _) eqn:E; [| done].
  apply Hschema in E. cbn [booking_status] in E. congruence.
Qed.

Lemma enum_schema_refuses_out_of_set_witness :
  (put_booking_status
     (fun b => isIn bookingStatuses (booking_status b))
     {| Users := []; Services := []; Blogs := [];
        Bookings := [ {| booking_id := "b1"; booking_status := "pending";
                         booking_createdAt := mkDate 2025 2 1 9 0 0 0;
                         booking_actualCost := 0 |} ];
        Contacts := [] |}
     {| params_id := "b1"; body_status := "done"; recorded_errors := [] |}).1
  = {| Users := []; Services := []; Blogs := [];
       Bookings := [ {| booking_id := "b1"; booking_status := "pending";
                        booking_createdAt := mkDate 2025 2 1 9 0 0 0;
                        booking_actualCost := 0 |} ];
       Contacts := [] |} /\
  (put_booking_status
     (fun b => isIn bookingStatuses (booking_status b))
     {| Users := []; Services := []; Blogs := [];
        Bookings := [ {| booking_id := "b1"; booking_status := "pending";
                         booking_createdAt := mkDate 2025 2 1 9 0 0 0;
                         booking_actualCost := 0 |} ];
        Contacts := [] |}
     {| params_id := "b1"; body_status := "done"; recorded_errors := [] |}).2
  = match findById "b1"
            [ {| booking_id := "b1"; booking_status := "pending";
                 booking_createdAt := mkDate 2025 2 1 9 0 0 0;
                 booking_actualCost := 0 |} ] with
    | Some _ => SaveRejected
    | None => NextError "Booking not found" 404
    end.
Proof.
  apply (enum_schema_refuses_out_of_set
           (fun b => isIn bookingStatuses (booking_status b))
           {| Users := []; Services := []; Blogs := [];
              Bookings := [ {| booking_id := "b1"; booking_status := "pending";
                               booking_createdAt := mkDate 2025 2 1 9 0 0 0;
                               booking_actualCost := 0 |} ];
              Contacts := [] |}
           {| params_id := "b1"; body_status := "done"; recorded_errors := [] |}).
  - intros b Hb. exact Hb.
  - reflexivity.
Defined.

End StatusUpdates.
